(** * Context Window Expander (notebooks/7-ExpandedContent-Week3.ipynb)

    A shallow embedding of the three functions of the notebook,
    [groupby_episode], [create_expanded_content] and
    [join_expanded_content], together with the assignment cell, the
    assertion loop of the post-check cell and the cells that update an
    existing collection, and the properties of the specification proved
    (or refuted) on them.

    Records are Python dicts with string keys: [gmap string value].
    Exceptions are an error monad [result]. Python integers are [Z];
    list slicing, [str.join], [enumerate] and [itertools.groupby] are
    modelled after their documented behaviour in [Module Py]. *)

From Stdlib Require Import ZArith Lia.
From stdpp Require Import base gmap list strings.

Local Open Scope string_scope.
Local Open Scope nat_scope.
Local Open Scope list_scope.

(** ** Python values, exceptions and built-ins *)
Module Py.

(** The fragment of [Any] that the notebook's records hold. *)
Inductive value : Type :=
| VNone
| VInt (z : Z)
| VStr (s : string).

#[global] Instance value_eq_dec : EqDecision value.
Proof. solve_decision. Defined.

Inductive exn : Type := AssertionError | KeyError | TypeError.

Inductive result (A : Type) : Type :=
| Ok (a : A)
| Raise (e : exn).
Arguments Ok {A} a.
Arguments Raise {A} e.

Definition bind {A B} (m : result A) (k : A → result B) : result B :=
  match m with
  | Ok a => k a
  | Raise e => Raise e
  end.

Notation "'let*' x ':=' m 'in' k" := (bind m (fun x => k))
  (at level 10, x pattern, m at level 100, k at level 200, only parsing).

(** [assert cond] *)
Definition py_assert (cond : bool) : result unit :=
  if cond then Ok tt else Raise AssertionError.

(** [d[k]] on a dict. *)
Definition getitem (d : gmap string value) (k : string) : result value :=
  match d !! k with
  | Some v => Ok v
  | None => Raise KeyError
  end.

(** A list comprehension [[f x for x in xs]] whose body may raise. *)
Fixpoint traverse {A B} (f : A → result B) (xs : list A) : result (list B) :=
  match xs with
  | [] => Ok []
  | x :: xs' =>
      let* y := f x in
      let* ys := traverse f xs' in
      Ok (y :: ys)
  end.

(** [for x in xs: body], threading the variables the body updates. *)
Fixpoint for_each {A S} (body : S → A → result S) (s : S) (xs : list A)
  : result S :=
  match xs with
  | [] => Ok s
  | x :: xs' =>
      let* s' := body s x in
      for_each body s' xs'
  end.

(** [enumerate(xs)] with Python integer indices. *)
Definition enumerate {A} (xs : list A) : list (Z * A) :=
  imap (λ i x, (Z.of_nat i, x)) xs.

(** Index adjustment of a slice bound for step 1: a negative bound
    counts from the end, and the result is clamped to [0, len]. *)
Definition adjust_index (len i : Z) : Z :=
  if (i <? 0)%Z then Z.max 0 (i + len) else Z.min i len.

(** [xs[start:stop]] *)
Definition py_slice {A} (xs : list A) (start stop : Z) : list A :=
  let len := Z.of_nat (length xs) in
  let lo := adjust_index len start in
  let hi := adjust_index len stop in
  take (Z.to_nat (hi - lo)) (drop (Z.to_nat lo) xs).

(** [sep.join(items)] on strings. *)
Fixpoint join (sep : string) (items : list string) : string :=
  match items with
  | [] => ""
  | x :: rest =>
      match rest with
      | [] => x
      | _ :: _ => x +:+ sep +:+ join sep rest
      end
  end.

Definition as_str (v : value) : result string :=
  match v with
  | VStr s => Ok s
  | _ => Raise TypeError
  end.

(** [sep.join(items)] on arbitrary values: a [TypeError] when an item
    is not a [str]. *)
Definition str_join (sep : string) (items : list value) : result string :=
  let* ss := traverse as_str items in
  Ok (join sep ss).

(** [itertools.groupby(iterable, key)], each group consumed as soon as
    it is yielded. [grouper] carries the target key and the group
    gathered so far over the rest of the iterator. *)
Section groupby.
Context {A K : Type} `{EqDecision K}.
Variable keyfunc : A → result K.

Fixpoint grouper (target_key : K) (group : list A) (it : list A)
  : result (list (K * list A)) :=
  match it with
  | [] => Ok [(target_key, group)]
  | curr_value :: it' =>
      let* curr_key := keyfunc curr_value in
      if decide (curr_key = target_key)
      then grouper target_key (group ++ [curr_value]) it'
      else
        let* rest := grouper curr_key [curr_value] it' in
        Ok ((target_key, group) :: rest)
  end.

Definition groupby (iterable : list A) : result (list (K * list A)) :=
  match iterable with
  | [] => Ok []
  | curr_value :: it =>
      let* curr_key := keyfunc curr_value in
      grouper curr_key [curr_value] it
  end.
End groupby.

End Py.

Export Py.

(** A chunk record: a dict from field names to values. *)
Abbreviation record := (gmap string value).

(** ** The notebook's functions *)

(** [groupby_episode(data, key_field)] *)
Definition groupby_episode (data : list record) (key_field : string)
  : result (list (list record)) :=
  let* groups := groupby (λ x, getitem x key_field) data in
  for_each (λ episodes '(_, group),
      let episode := group in
      Ok (episodes ++ [episode]))
    [] groups.

(** The slice [episode[start:end]] taken at position [i]. *)
Definition window (window_size : Z) (episode : list value) (i : Z)
  : list value :=
  let start := Z.max 0 (i - window_size) in
  let end_ := (i + window_size + 1)%Z in
  py_slice episode start end_.

(** The inner loop of [create_expanded_content] over one episode. *)
Definition expand_episode (window_size : Z) (episode : list value)
  : result (list string) :=
  for_each (λ episode_container '(i, _),
      let* expanded_content := str_join " " (window window_size episode i) in
      Ok (episode_container ++ [expanded_content]))
    [] (enumerate episode).

(** [create_expanded_content(data, window_size, num_episodes, key_field)];
    [tqdm] iterates over its argument unchanged. *)
Definition create_expanded_content (data : list record) (window_size : Z)
    (num_episodes : Z) (key_field : string) : result (list (list string)) :=
  let* episodes := groupby_episode data key_field in
  let* _ := py_assert (Z.of_nat (length episodes) =? num_episodes)%Z in
  let* chunk_list :=
    traverse (λ alist, traverse (λ d, getitem d "content") alist) episodes in
  for_each (λ expanded_contents episode,
      let* episode_container := expand_episode window_size episode in
      Ok (expanded_contents ++ [episode_container]))
    [] chunk_list.

(** Default arguments of [create_expanded_content]. *)
Definition default_window_size : Z := 1.
Definition default_num_episodes : Z := 193.
Definition default_key_field : string := "video_id".

(** [join_expanded_content(data, flattened_content, new_key)]: between
    the exercise markers the body holds only the docstring
    "Updates data with an expanded_content key.", so the function
    reaches [return data] at once. *)
Definition join_expanded_content (data : list record)
    (flattened_content : list string) (new_key : string) : list record :=
  data.




(** The assertion loop that opens the post-check cell:
    [for d in data: assert d.get('expanded_content', -1) != -1].
    The [print] calls that follow it in the cell are not part of this
    definition. *)
Definition post_check (data : list record) : result unit :=
  for_each (λ _ d,
      let got := default (VInt (-1)) (d !! "expanded_content") in
      py_assert (bool_decide (got ≠ VInt (-1))))
    tt data.

(** ** Vocabulary of the specification *)

(** The positions [max(0, i-W) .. i+W] that fall inside a group of [n]
    chunks. *)
Definition window_positions (W : Z) (n i : nat) : list nat :=
  filter (λ j, Z.max 0 (Z.of_nat i - W) ≤ Z.of_nat j ≤ Z.of_nat i + W)%Z
    (seq 0 n).

(** The chunks of a group at those positions, in order. *)
Definition window_chunks (W : Z) (group : list string) (i : nat)
  : list string :=
  omap (λ j, group !! j) (window_positions W (length group) i).

(** The Window Joiner as the specification words it. *)
Definition window_joiner (W : Z) (group : list string) : list string :=
  imap (λ i _, join " " (window_chunks W group i)) group.

(** [chunks] are the [content] strings of the records of [episode]. *)
Definition contents_of (episode : list record) (chunks : list string) : Prop :=
  Forall2 (λ d s, d !! "content" = Some (VStr s)) episode chunks.

(** [needle] occurs in [hay] as a contiguous substring. *)
Definition substring_of (needle hay : string) : Prop :=
  ∃ pre post, hay = pre +:+ needle +:+ post.


(** No two neighbours of a list are equal. *)
Fixpoint chain_ne {K} (ks : list K) : Prop :=
  match ks with
  | [] => True
  | k :: ks' =>
      match ks' with
      | [] => True
      | k' :: _ => k ≠ k' ∧ chain_ne ks'
      end
  end.

(** [groups] cuts a sequence into its maximal runs of equal [kv]:
    no group is empty, [kv] is constant on a group, and it changes
    from each group to the next. *)
Definition is_runs {A V} (kv : A → V) (groups : list (list A)) : Prop :=
  Forall (λ g, g ≠ [] ∧ ∀ x y, x ∈ g → y ∈ g → kv x = kv y) groups ∧
  ∀ j g g' x y, groups !! j = Some g → groups !! S j = Some g' →
    x ∈ g → y ∈ g' → kv x ≠ kv y.

(** The index of the group that holds flat position [i] of
    [concat groups] ([length groups] when [i] is out of range). *)
Fixpoint group_index {A} (groups : list (list A)) (i : nat) : nat :=
  match groups with
  | [] => 0
  | g :: groups' =>
      if decide (i < length g) then 0
      else S (group_index groups' (i - length g))
  end.

(** Every yielded group is non-empty and made of items whose key is the
    key it is yielded with. *)
Definition keyed {A K} (keyfunc : A → result K) (gs : list (K * list A))
  : Prop :=
  Forall (λ kg, kg.2 ≠ [] ∧ Forall (λ x, keyfunc x = Ok kg.1) kg.2) gs.

(** What the inner loop yields on a group of strings: at each position
    the joined slice. *)
Definition joined_slices (W : Z) (group : list string) : list string :=
  imap (λ i _,
      join " " (py_slice group (Z.max 0 (Z.of_nat i - W))
                  (Z.of_nat i + W + 1)%Z))
    group.

(** All records carry the key field and a [content] string. *)
Definition well_formed (key_field : string) (data : list record) : Prop :=
  Forall (λ d, is_Some (d !! key_field) ∧ ∃ s, d !! "content" = Some (VStr s))
    data.

(** A record with the two fields the transform reads. *)
Definition chunk (video_id content : string) : record :=
  {[ "video_id" := VStr video_id; "content" := VStr content ]}.

(** ** Example inputs *)

Definition abcd : list record :=
  [chunk "e" "A"; chunk "e" "B"; chunk "e" "C"; chunk "e" "D"].

Definition two_groups : list record :=
  [chunk "e" "A"; chunk "e" "B"; chunk "f" "X"; chunk "f" "Y"; chunk "f" "Z"].

Definition split_runs : list record :=
  [chunk "e" "A"; chunk "f" "B"; chunk "e" "C"].

(** ** The cells that update an existing collection *)

(** Values are hashable: they can key a Python dict. *)
#[global] Instance value_countable : Countable value.
Proof.
  refine (inj_countable'
    (λ v, match v with
          | VNone => inl ()
          | VInt z => inr (inl z)
          | VStr s => inr (inr s)
          end)
    (λ x, match x with
          | inl _ => VNone
          | inr (inl z) => VInt z
          | inr (inr s) => VStr s
          end) _).
  by intros [].
Defined.

(** An object of the collection as the notebook reads it:
    [item.properties] and [item.uuid]. *)
Record weaviate_object : Type := WeaviateObject {
  properties : record;
  uuid : string
}.

(** [doc_id_cache = {item.properties['doc_id']: item.uuid
                     for item in tqdm(collection.iterator())}],
    over the objects the iterator yields. *)
Definition doc_id_cache (items : list weaviate_object)
  : result (gmap value string) :=
  for_each (λ cache item,
      let* doc_id := getitem (properties item) "doc_id" in
      Ok (<[doc_id := uuid item]> cache))
    ∅ items.

(** A call [collection.data.update(uuid=uuid, properties=props)] handed
    to the external client. What the client does with it is not the
    notebook's code; the calls are recorded in the order they are made. *)
Inductive client_call : Type :=
| DataUpdate (call_uuid : string) (call_properties : record).

(** [doc_id_cache[doc_id]] *)
Definition cache_getitem (cache : gmap value string) (doc_id : value)
  : result string :=
  match cache !! doc_id with
  | Some u => Ok u
  | None => Raise KeyError
  end.

(** The body of the update loop, up to the call it makes. *)
Definition update_call (cache : gmap value string) (d : record)
  : result client_call :=
  let* doc_id := getitem d "doc_id" in
  let* expanded_content := getitem d "expanded_content" in
  let* uuid := cache_getitem cache doc_id in
  Ok (DataUpdate uuid {[ "expanded_content" := expanded_content ]}).

(** [for d in tqdm(data): ...]: the calls made so far, and how the loop
    ended. An exception leaves the calls already made in place. *)
Fixpoint update_loop (cache : gmap value string) (calls : list client_call)
    (data : list record) : list client_call * result unit :=
  match data with
  | [] => (calls, Ok tt)
  | d :: data' =>
      match update_call cache d with
      | Ok call => update_loop cache (calls ++ [call]) data'
      | Raise e => (calls, Raise e)
      end
  end.

Definition update_collection (cache : gmap value string) (data : list record)
  : list client_call * result unit :=
  update_loop cache [] data.

(** ** Further vocabulary *)

(** The number of items of [l] whose [kv] differs from that of the item
    before it, [prev] being the value before the first. *)
Fixpoint key_changes {A V} `{EqDecision V} (kv : A → V) (prev : V)
    (l : list A) : nat :=
  match l with
  | [] => 0
  | x :: l' =>
      (if decide (kv x = prev) then 0 else 1) + key_changes kv (kv x) l'
  end.

(** The number of maximal runs of equal [kv] in [l]. *)
Definition run_count {A V} `{EqDecision V} (kv : A → V) (l : list A) : nat :=
  match l with
  | [] => 0
  | x :: l' => S (key_changes kv (kv x) l')
  end.

(** Two results agree up to a relation on their values. *)
Definition result_rel {A B} (R : A → B → Prop) (r : result A) (r' : result B)
  : Prop :=
  match r, r' with
  | Ok a, Ok b => R a b
  | Raise e, Raise e' => e = e'
  | _, _ => False
  end.

(** Two records agree on the two fields the transform reads. *)
Definition same_fields (key_field : string) (d d' : record) : Prop :=
  d !! key_field = d' !! key_field ∧ d !! "content" = d' !! "content".

(** Yielded groups that carry the same keys and records agreeing on the
    two fields. *)
Definition groups_rel (key_field : string)
    (gs gs' : list (value * list record)) : Prop :=
  Forall2 (λ kg kg', kg.1 = kg'.1 ∧ Forall2 (same_fields key_field) kg.2 kg'.2)
    gs gs'.

(** The loop behind the dict comprehension of [doc_id_cache], from any
    starting dict. *)
Definition fill_cache (cache : gmap value string)
    (items : list weaviate_object) : result (gmap value string) :=
  for_each (λ cache item,
      let* doc_id := getitem (properties item) "doc_id" in
      Ok (<[doc_id := uuid item]> cache))
    cache items.

(** The [doc_id] of a collection object, when it has one. *)
Definition doc_id_of (item : weaviate_object) : option value :=
  properties item !! "doc_id".

(** [call] is the update the loop makes for record [d]: the uuid cached
    for the record's [doc_id], with the record's [expanded_content] as
    the only property. *)
Definition update_for (cache : gmap value string) (d : record)
    (call : client_call) : Prop :=
  ∃ doc_id expanded_content u,
    d !! "doc_id" = Some doc_id ∧
    d !! "expanded_content" = Some expanded_content ∧
    cache !! doc_id = Some u ∧
    call = DataUpdate u {[ "expanded_content" := expanded_content ]}.

(** Two records of one episode, and two records of two episodes. *)
Definition one_episode : list record := [chunk "e" "A"; chunk "e" "B"].
Definition two_episodes : list record := [chunk "e" "A"; chunk "f" "X"].

(** ** The error monad and the loops *)
Lemma bind_Ok {A B} (m : result A) (k : A → result B) b :
  bind m k = Ok b ↔ ∃ a, m = Ok a ∧ k a = Ok b.
Proof.
  destruct m as [a|e]; simpl; split.
  - intros Hk. by exists a.
  - by intros (a' & [= ->] & Hk).
  - discriminate.
  - by intros (a' & [=] & _).
Qed.

Lemma bind_Raise {A B} (m : result A) (k : A → result B) e :
  bind m k = Raise e ↔ m = Raise e ∨ ∃ a, m = Ok a ∧ k a = Raise e.
Proof.
  destruct m as [a|e']; simpl; split.
  - intros Hk. right. by exists a.
  - intros [[=]|(a' & [= ->] & Hk)]. done.
  - intros [= ->]. by left.
  - intros [[= ->]|(a' & [=] & _)]. done.
Qed.

Section monad_lemmas.
Context {A B : Type}.

Lemma traverse_total (f : A → B) xs :
  traverse (λ x, Ok (f x)) xs = Ok (map f xs).
Proof. induction xs as [|x xs IH]; simpl; [done|]. by rewrite IH. Qed.

Lemma traverse_ext (f g : A → result B) xs :
  Forall (λ x, f x = g x) xs → traverse f xs = traverse g xs.
Proof.
  induction 1 as [|x xs Hx _ IH]; simpl; [done|]. by rewrite Hx, IH.
Qed.

Lemma traverse_Ok (f : A → result B) xs ys :
  traverse f xs = Ok ys ↔ Forall2 (λ x y, f x = Ok y) xs ys.
Proof.
  revert ys. induction xs as [|x xs IH]; intros ys; simpl.
  - split; [intros [= <-]; constructor | by inversion 1].
  - split.
    + intros (y & Hy & (ys' & Hys & [= <-])%bind_Ok)%bind_Ok.
      constructor; [done|]. by apply IH.
    + inversion 1 as [|? y ? ys' Hy Hys]; subst.
      rewrite Hy. simpl. apply IH in Hys. by rewrite Hys.
Qed.

Lemma traverse_Raise (f : A → result B) xs e :
  traverse f xs = Raise e → Exists (λ x, f x = Raise e) xs.
Proof.
  induction xs as [|x xs IH]; simpl; [discriminate|].
  intros [Hx|(y & Hy & [Hys|(ys & _ & [=])]%bind_Raise)]%bind_Raise.
  - by left.
  - right. by apply IH.
Qed.

Lemma traverse_defined (f : A → result B) xs :
  Forall (λ x, ∃ y, f x = Ok y) xs → ∃ ys, traverse f xs = Ok ys.
Proof.
  induction 1 as [|x xs [y Hy] _ [ys IH]]; simpl; [by eexists|].
  rewrite Hy, IH. simpl. by eexists.
Qed.

(** A loop that appends one computed item per element is a list
    comprehension appended to the starting list. *)
Lemma for_each_append (f : A → result B) body acc xs :
  (∀ s x, body s x = let* y := f x in Ok (s ++ [y])) →
  for_each body acc xs = let* ys := traverse f xs in Ok (acc ++ ys).
Proof.
  intros Hbody. revert acc.
  induction xs as [|x xs IH]; intros acc; simpl.
  - by rewrite app_nil_r.
  - rewrite Hbody. destruct (f x) as [y|e]; simpl; [|done].
    rewrite IH. destruct (traverse f xs) as [ys|e]; simpl; [|done].
    by rewrite <- app_assoc.
Qed.
End monad_lemmas.

(** ** [itertools.groupby] *)

Section groupby_lemmas.
Context {A K : Type} `{EqDecision K}.
Variable keyfunc : A → result K.

Lemma grouper_concat it : ∀ tgt grp gs,
  grouper keyfunc tgt grp it = Ok gs →
  concat (map snd gs) = grp ++ it.
Proof.
  induction it as [|x it IH]; intros tgt grp gs; simpl.
  - intros [= <-]. simpl. by rewrite !app_nil_r.
  - intros (k & Hk & Hgs)%bind_Ok.
    destruct (decide (k = tgt)) as [->|Hne].
    + apply IH in Hgs. by rewrite Hgs, <- app_assoc.
    + apply bind_Ok in Hgs as (rest & Hrest & [= <-]).
      apply IH in Hrest. simpl. by rewrite Hrest.
Qed.

Lemma grouper_keyed it : ∀ tgt grp gs,
  grp ≠ [] → Forall (λ x, keyfunc x = Ok tgt) grp →
  grouper keyfunc tgt grp it = Ok gs →
  (∃ g rest, gs = (tgt, g) :: rest) ∧ keyed keyfunc gs ∧ chain_ne (map fst gs).
Proof.
  induction it as [|x it IH]; intros tgt grp gs Hne Hgrp; simpl.
  - intros [= <-]. split; [by eexists _, _|].
    split; [|done]. by repeat constructor.
  - intros (k & Hk & Hgs)%bind_Ok.
    destruct (decide (k = tgt)) as [->|Hk'].
    + apply IH in Hgs; [done|by destruct grp|].
      apply Forall_app. split; [done|]. by constructor.
    + apply bind_Ok in Hgs as (rest & Hrest & [= <-]).
      apply IH in Hrest as ((g & rest' & ->) & Hkeyed & Hchain);
        [|done|by repeat constructor].
      split; [by eexists _, _|]. split.
      * by constructor.
      * simpl. split; [congruence|done].
Qed.

Lemma grouper_Raise it : ∀ tgt grp e,
  grouper keyfunc tgt grp it = Raise e →
  Exists (λ x, keyfunc x = Raise e) it.
Proof.
  induction it as [|x it IH]; intros tgt grp e; simpl; [discriminate|].
  intros [Hx|(k & Hk & Hgs)]%bind_Raise; [by left|]. right.
  destruct (decide (k = tgt)) as [->|Hk']; [by eapply IH|].
  apply bind_Raise in Hgs as [Hgs|(rest & _ & [=])]. by eapply IH.
Qed.

Lemma groupby_concat xs gs :
  groupby keyfunc xs = Ok gs → concat (map snd gs) = xs.
Proof.
  destruct xs as [|x xs]; simpl; [by intros [= <-]|].
  intros (k & Hk & Hgs)%bind_Ok. by apply grouper_concat in Hgs.
Qed.

Lemma groupby_keyed xs gs :
  groupby keyfunc xs = Ok gs → keyed keyfunc gs ∧ chain_ne (map fst gs).
Proof.
  destruct xs as [|x xs]; simpl.
  - intros [= <-]. split; [constructor|done].
  - intros (k & Hk & Hgs)%bind_Ok.
    apply grouper_keyed in Hgs as (_ & ? & ?); by repeat constructor.
Qed.

Lemma groupby_Raise xs e :
  groupby keyfunc xs = Raise e → Exists (λ x, keyfunc x = Raise e) xs.
Proof.
  destruct xs as [|x xs]; simpl; [discriminate|].
  intros [Hx|(k & Hk & Hgs)]%bind_Raise; [by left|]. right.
  by eapply grouper_Raise.
Qed.

Lemma chain_ne_lookup (ks : list K) j k k' :
  chain_ne ks → ks !! j = Some k → ks !! S j = Some k' → k ≠ k'.
Proof.
  revert j. induction ks as [|k0 ks IH]; intros j; [done|].
  destruct ks as [|k1 ks]; [by destruct j|].
  intros [Hne Hchain]. destruct j as [|j]; simpl.
  - by intros [= <-] [= <-].
  - by apply IH.
Qed.

Lemma keyed_is_runs gs :
  keyed keyfunc gs → chain_ne (map fst gs) → is_runs keyfunc (map snd gs).
Proof.
  intros Hkeyed Hchain. split.
  - apply Forall_fmap. eapply Forall_impl; [exact Hkeyed|].
    intros [k g]; simpl. intros [Hne Hg]. split; [done|].
    intros x y Hx Hy. rewrite Forall_forall in Hg.
    by rewrite (Hg x Hx), (Hg y Hy).
  - intros j g g' x y Hj HSj Hx Hy.
    rewrite list_lookup_fmap in Hj, HSj.
    destruct (gs !! j) as [[k g0]|] eqn:Ej; simplify_eq/=.
    destruct (gs !! S j) as [[k' g1]|] eqn:ESj; simplify_eq/=.
    assert (Hkk : k ≠ k').
    { apply (chain_ne_lookup (map fst gs) j); [done|..];
        rewrite list_lookup_fmap; [by rewrite Ej|by rewrite ESj]. }
    unfold keyed in Hkeyed. rewrite Forall_forall in Hkeyed.
    destruct (Hkeyed (k, g) (list_elem_of_lookup_2 _ _ _ Ej)) as [_ Hg].
    destruct (Hkeyed (k', g') (list_elem_of_lookup_2 _ _ _ ESj)) as [_ Hg'].
    simpl in *. rewrite Forall_forall in Hg, Hg'.
    rewrite (Hg x Hx), (Hg' y Hy). congruence.
Qed.
End groupby_lemmas.

(** ** Runs and the group of a position *)
Section runs.
Context {A V : Type}.
Variable kv : A → V.

Lemma is_runs_tail g (groups : list (list A)) :
  is_runs kv (g :: groups) → is_runs kv groups.
Proof.
  intros [Hall Hadj]. split; [by inversion Hall|].
  intros j g1 g2 x y Hj HSj. by apply (Hadj (S j)).
Qed.

Lemma group_index_mono (groups : list (list A)) i j :
  i ≤ j → group_index groups i ≤ group_index groups j.
Proof.
  revert i j. induction groups as [|g groups IH]; intros i j Hij; simpl.
  - done.
  - repeat case_decide; try lia. apply le_n_S, IH. lia.
Qed.

Lemma group_index_lookup (groups : list (list A)) i x :
  concat groups !! i = Some x →
  ∃ g, groups !! group_index groups i = Some g ∧ x ∈ g.
Proof.
  revert i. induction groups as [|g groups IH]; intros i; simpl; [done|].
  case_decide as Hi.
  - rewrite lookup_app_l by done. intros Hx. exists g.
    split; [done|]. by eapply list_elem_of_lookup_2.
  - rewrite lookup_app_r by lia. apply IH.
Qed.

(** From one position to the next the group stays when [kv] stays
    and advances by one when [kv] changes. *)
Lemma group_index_step (groups : list (list A)) i x y :
  is_runs kv groups →
  concat groups !! i = Some x → concat groups !! S i = Some y →
  (kv x = kv y ∧ group_index groups (S i) = group_index groups i) ∨
  (kv x ≠ kv y ∧ group_index groups (S i) = S (group_index groups i)).
Proof.
  revert i. induction groups as [|g groups IH]; intros i Hruns; [done|].
  pose proof (is_runs_tail _ _ Hruns) as Htail.
  destruct Hruns as [Hall Hadj].
  apply Forall_cons in Hall as [[Hg Hconst] Hall].
  simpl. intros Hx Hy.
  destruct (decide (S i < length g)) as [HSi|HSi].
  - rewrite decide_True by lia.
    rewrite lookup_app_l in Hx by lia. rewrite lookup_app_l in Hy by lia.
    left. split; [|done].
    apply Hconst; by eapply list_elem_of_lookup_2.
  - destruct (decide (i < length g)) as [Hi|Hi].
    + rewrite lookup_app_l in Hx by lia. rewrite lookup_app_r in Hy by lia.
      replace (S i - length g) with 0 in * by lia.
      right. destruct groups as [|g' groups]; [done|].
      apply Forall_cons in Hall as [[Hg' _] _].
      simpl in *. destruct g' as [|y' g']; [done|].
      simpl in Hy. injection Hy as ->. split.
      * apply (Hadj 0 g (y :: g')); [done..| |by left].
        by eapply list_elem_of_lookup_2.
      * by rewrite decide_True by (simpl; lia).
    + rewrite lookup_app_r in Hx by lia. rewrite lookup_app_r in Hy by lia.
      replace (S i - length g) with (S (i - length g)) in * by lia.
      destruct (IH _ Htail Hx Hy) as [[? ->]|[? ->]]; [by left|by right].
Qed.

(** Two positions separated by a change of [kv] lie in distinct
    groups, whatever [kv] is at the later one. *)
Lemma group_index_split (groups : list (list A)) i m j x y :
  is_runs kv groups → i < m ≤ j →
  concat groups !! i = Some x → concat groups !! m = Some y →
  kv x ≠ kv y →
  group_index groups i < group_index groups j.
Proof.
  intros [Hall _] [Him Hmj] Hx Hy Hne.
  pose proof (group_index_mono groups i m ltac:(lia)) as H1.
  pose proof (group_index_mono groups m j Hmj) as H2.
  destruct (decide (group_index groups i = group_index groups m)) as [E|];
    [|lia].
  apply group_index_lookup in Hx as (g & Hg & Hxg).
  apply group_index_lookup in Hy as (g' & Hg' & Hyg).
  rewrite E in Hg. assert (g' = g) as -> by congruence.
  rewrite Forall_forall in Hall.
  destruct (Hall g (list_elem_of_lookup_2 _ _ _ Hg)) as [_ Hconst].
  destruct Hne. by apply Hconst.
Qed.
End runs.

Lemma is_runs_ext {A V V'} (kv : A → V) (kv' : A → V') groups :
  (∀ x y, kv x = kv y ↔ kv' x = kv' y) →
  is_runs kv groups → is_runs kv' groups.
Proof.
  intros Hext [Hall Hadj]. split.
  - eapply Forall_impl; [exact Hall|]. intros g [Hg Hconst].
    split; [done|]. intros x y Hx Hy. apply Hext. by apply Hconst.
  - intros j g g' x y Hj HSj Hx Hy Heq.
    apply (Hadj j g g' x y); [done..|]. by apply Hext.
Qed.

(** ** The Episode Grouper *)

Lemma getitem_Ok (d : record) k v : getitem d k = Ok v ↔ d !! k = Some v.
Proof. unfold getitem. destruct (d !! k); split; congruence. Qed.

Lemma getitem_Raise (d : record) k e :
  getitem d k = Raise e ↔ e = KeyError ∧ d !! k = None.
Proof.
  unfold getitem. destruct (d !! k); split; try congruence.
  - by intros [_ [=]].
  - by intros [= <-].
  - by intros [-> _].
Qed.

Lemma getitem_eq (d d' : record) k :
  getitem d k = getitem d' k ↔ d !! k = d' !! k.
Proof.
  unfold getitem. destruct (d !! k), (d' !! k); split; congruence.
Qed.

Lemma groupby_episode_eq data key_field :
  groupby_episode data key_field =
  let* groups := groupby (λ x, getitem x key_field) data in
  Ok (map snd groups).
Proof.
  unfold groupby_episode.
  destruct (groupby _ data) as [groups|e]; simpl; [|done].
  rewrite (for_each_append (λ kg, Ok kg.2)); [|by intros s [k g]].
  by rewrite traverse_total.
Qed.

Lemma groupby_episode_Ok data key_field episodes :
  groupby_episode data key_field = Ok episodes →
  concat episodes = data ∧ is_runs (λ r : record, r !! key_field) episodes.
Proof.
  rewrite groupby_episode_eq. intros (gs & Hgs & [= <-])%bind_Ok. split.
  - by eapply groupby_concat.
  - apply groupby_keyed in Hgs as [Hkeyed Hchain].
    eapply is_runs_ext; [|by apply keyed_is_runs].
    intros x y. apply getitem_eq.
Qed.

Lemma groupby_episode_Raise data key_field e :
  groupby_episode data key_field = Raise e →
  e = KeyError ∧ Exists (λ r : record, r !! key_field = None) data.
Proof.
  rewrite groupby_episode_eq. intros [Hgs|(gs & _ & [=])]%bind_Raise.
  apply groupby_Raise in Hgs. apply Exists_exists in Hgs as (r & Hr & He).
  apply getitem_Raise in He as [-> He]. split; [done|].
  apply Exists_exists. eauto.
Qed.

Lemma groupby_episode_defined data key_field :
  Forall (λ r : record, is_Some (r !! key_field)) data →
  ∃ episodes, groupby_episode data key_field = Ok episodes.
Proof.
  intros Hall. destruct (groupby_episode data key_field) as [eps|e] eqn:E;
    [by eexists|].
  apply groupby_episode_Raise in E as [_ (r & Hr & Hnone)%Exists_exists].
  rewrite Forall_forall in Hall. destruct (Hall r Hr) as [v Hv]. congruence.
Qed.

(** ** Slices and windows *)
Section slices.
Context {A : Type}.

Lemma filter_seq_interval (P : nat → Prop) `{∀ j, Decision (P j)} a b n :
  (∀ j, j < n → P j ↔ a ≤ j < b) →
  filter P (seq 0 n) = seq a (b `min` n - a).
Proof.
  induction n as [|n IH]; intros HP.
  - by replace (b `min` 0 - a) with 0 by lia.
  - rewrite seq_S, filter_app, IH by (intros j Hj; apply HP; lia).
    simpl. rewrite filter_cons, filter_nil.
    destruct (decide (P n)) as [Hn|Hn].
    + apply HP in Hn; [|lia].
      replace (b `min` S n - a) with (S (b `min` n - a)) by lia.
      rewrite seq_S. do 2 f_equal. lia.
    + rewrite app_nil_r. f_equal.
      destruct (decide (a ≤ n < b)) as [Hab|Hab]; [|lia].
      destruct Hn. apply HP; [lia|done].
Qed.

Lemma omap_lookup_seq (xs : list A) k : ∀ a,
  a + k ≤ length xs →
  omap (λ j, xs !! j) (seq a k) = take k (drop a xs).
Proof.
  induction k as [|k IH]; intros a Hlen; simpl; [done|].
  destruct (lookup_lt_is_Some_2 xs a ltac:(lia)) as [x Hx].
  rewrite Hx, (drop_S _ _ _ Hx). simpl. f_equal. apply IH. lia.
Qed.

(** A slice with non-negative bounds holds the items whose position
    lies in [[start, stop)]. *)
Lemma py_slice_positions (xs : list A) (start stop : Z) :
  (0 ≤ start)%Z → (0 ≤ stop)%Z →
  py_slice xs start stop =
  omap (λ j, xs !! j)
    (filter (λ j, start ≤ Z.of_nat j < stop)%Z (seq 0 (length xs))).
Proof.
  intros Hstart Hstop. unfold py_slice, adjust_index.
  rewrite !(proj2 (Z.ltb_ge _ _)) by done.
  rewrite (filter_seq_interval _ (Z.to_nat start) (Z.to_nat stop))
    by (intros; lia).
  destruct (decide (Z.to_nat start ≤ length xs)) as [Hle|Hgt].
  - rewrite omap_lookup_seq by lia.
    f_equal; [lia|f_equal; lia].
  - replace (Z.to_nat stop `min` length xs - Z.to_nat start) with 0 by lia.
    simpl. apply nil_length_inv. rewrite length_take. lia.
Qed.

Lemma py_slice_empty (xs : list A) (start stop : Z) :
  (0 ≤ stop ≤ start)%Z → py_slice xs start stop = [].
Proof.
  intros Hle. unfold py_slice, adjust_index.
  rewrite !(proj2 (Z.ltb_ge _ _)) by lia.
  apply nil_length_inv. rewrite length_take. lia.
Qed.

Lemma length_py_slice_nonneg (xs : list A) (start stop : Z) :
  (0 ≤ start)%Z → (0 ≤ stop)%Z →
  Z.of_nat (length (py_slice xs start stop)) =
  Z.max 0 (Z.min stop (Z.of_nat (length xs)) - start).
Proof.
  intros Hstart Hstop. unfold py_slice, adjust_index.
  rewrite !(proj2 (Z.ltb_ge _ _)) by done.
  rewrite length_take, length_drop. lia.
Qed.

(** A slice is a contiguous part of the list it is taken from,
    starting at the adjusted start index. *)
Lemma py_slice_infix (xs : list A) (start stop : Z) :
  ∃ pre post,
    xs = pre ++ py_slice xs start stop ++ post ∧
    Z.of_nat (length pre) = adjust_index (Z.of_nat (length xs)) start.
Proof.
  assert (Hcut : ∀ k lo,
    xs = take lo xs ++ take k (drop lo xs) ++ drop k (drop lo xs)).
  { intros k lo. by rewrite (take_drop k), (take_drop lo). }
  unfold py_slice. eexists _, _. split; [apply Hcut|].
  rewrite length_take. unfold adjust_index.
  destruct (Z.ltb_spec start 0); lia.
Qed.

(** A negative stop index counts from the end of the list. *)
Lemma py_slice_neg_stop (xs : list A) (start stop : Z) :
  (stop < 0)%Z →
  py_slice xs start stop =
  py_slice xs start (Z.max 0 (stop + Z.of_nat (length xs))).
Proof.
  intros Hstop. unfold py_slice. do 3 f_equal. unfold adjust_index.
  rewrite (proj2 (Z.ltb_lt _ _) Hstop).
  rewrite (proj2 (Z.ltb_ge _ _)) by lia. lia.
Qed.

Lemma py_slice_fmap {B} (f : A → B) (xs : list A) (start stop : Z) :
  py_slice (f <$> xs) start stop = f <$> py_slice xs start stop.
Proof.
  unfold py_slice. by rewrite length_fmap, fmap_take, fmap_drop.
Qed.
End slices.

(** ** The Window Joiner *)

Lemma traverse_as_str (l : list string) : traverse as_str (VStr <$> l) = Ok l.
Proof. induction l as [|x l IH]; csimpl; [done|]. by rewrite IH. Qed.

Lemma str_join_strs sep (l : list string) :
  str_join sep (VStr <$> l) = Ok (join sep l).
Proof. unfold str_join. by rewrite traverse_as_str. Qed.

Lemma str_join_Raise sep items e : str_join sep items = Raise e → e = TypeError.
Proof.
  unfold str_join. intros [Htr|(ss & _ & [=])]%bind_Raise.
  apply traverse_Raise, Exists_exists in Htr as ([] & _ & Hx); by simplify_eq/=.
Qed.

Lemma expand_episode_eq W episode :
  expand_episode W episode =
  traverse (λ ix, str_join " " (window W episode ix.1)) (enumerate episode).
Proof.
  unfold expand_episode.
  rewrite (for_each_append (λ ix, str_join " " (window W episode ix.1)));
    [|by intros s [i c]].
  by destruct (traverse _ _).
Qed.

Lemma expand_episode_Raise W episode e :
  expand_episode W episode = Raise e → e = TypeError.
Proof.
  rewrite expand_episode_eq.
  intros (ix & _ & Hix)%traverse_Raise%Exists_exists.
  by eapply str_join_Raise.
Qed.

Lemma length_expand_episode W episode out :
  expand_episode W episode = Ok out → length out = length episode.
Proof.
  rewrite expand_episode_eq. intros Hall%traverse_Ok%Forall2_length.
  unfold enumerate in Hall. by rewrite length_imap in Hall.
Qed.

Lemma expand_episode_strs W (group : list string) :
  expand_episode W (VStr <$> group) = Ok (joined_slices W group).
Proof.
  rewrite expand_episode_eq.
  rewrite (traverse_ext _ (λ ix, Ok (join " "
    (py_slice group (Z.max 0 (ix.1 - W)) (ix.1 + W + 1)%Z)))).
  - rewrite traverse_total. f_equal. unfold enumerate, joined_slices.
    rewrite imap_fmap. apply list_eq. intros i.
    rewrite list_lookup_fmap, !list_lookup_imap.
    by destruct (group !! i).
  - apply Forall_forall. intros [i c] _. simpl. unfold window.
    by rewrite py_slice_fmap, str_join_strs.
Qed.

(** For a non-negative window the joined slices are the chunks at the
    positions [max(0, i-W) .. i+W] inside the group. *)
Lemma joined_slices_window_joiner W (group : list string) :
  (0 ≤ W)%Z → joined_slices W group = window_joiner W group.
Proof.
  intros HW. unfold joined_slices, window_joiner.
  apply imap_ext. intros i x _. f_equal.
  rewrite py_slice_positions by lia.
  unfold window_chunks, window_positions. f_equal.
  apply list_filter_iff. intros j. lia.
Qed.

(** ** [create_expanded_content] *)

Lemma create_expanded_content_eq data W n key_field :
  create_expanded_content data W n key_field =
  let* episodes := groupby_episode data key_field in
  let* _ := py_assert (Z.of_nat (length episodes) =? n)%Z in
  let* chunk_list :=
    traverse (traverse (λ d : record, getitem d "content")) episodes in
  traverse (expand_episode W) chunk_list.
Proof.
  unfold create_expanded_content.
  destruct (groupby_episode _ _) as [eps|]; simpl; [|done].
  destruct (py_assert _); simpl; [|done].
  destruct (traverse _ eps) as [cl|]; simpl; [|done].
  rewrite (for_each_append (expand_episode W)); [|done].
  by destruct (traverse _ cl).
Qed.

Lemma create_expanded_content_inv data W n key_field out :
  create_expanded_content data W n key_field = Ok out ↔
  ∃ episodes chunk_list,
    groupby_episode data key_field = Ok episodes ∧
    Z.of_nat (length episodes) = n ∧
    traverse (traverse (λ d : record, getitem d "content")) episodes
      = Ok chunk_list ∧
    traverse (expand_episode W) chunk_list = Ok out.
Proof.
  rewrite create_expanded_content_eq. split.
  - intros (eps & Heps & Hrest)%bind_Ok.
    apply bind_Ok in Hrest as ([] & Hassert & Hrest).
    apply bind_Ok in Hrest as (cl & Hcl & Hout).
    exists eps, cl. repeat split; try done.
    unfold py_assert in Hassert.
    destruct (Z.eqb_spec (Z.of_nat (length eps)) n); [done|discriminate].
  - intros (eps & cl & -> & <- & Hcl & Hout). simpl.
    unfold py_assert. rewrite Z.eqb_refl. simpl. by rewrite Hcl.
Qed.

Lemma traverse_contents (episodes : list (list record)) chunks :
  Forall2 contents_of episodes chunks →
  traverse (traverse (λ d : record, getitem d "content")) episodes
    = Ok ((λ group : list string, VStr <$> group) <$> chunks).
Proof.
  intros Hall. apply traverse_Ok, Forall2_fmap_r.
  eapply Forall2_impl; [exact Hall|]. intros ep group Hep. simpl.
  apply traverse_Ok, Forall2_fmap_r.
  eapply Forall2_impl; [exact Hep|]. intros d c Hd. simpl.
  by apply getitem_Ok.
Qed.

Lemma traverse_expand_strs W (chunks : list (list string)) :
  traverse (expand_episode W) ((λ group : list string, VStr <$> group) <$> chunks)
    = Ok (joined_slices W <$> chunks).
Proof.
  induction chunks as [|group chunks IH]; csimpl; [done|].
  by rewrite expand_episode_strs, IH.
Qed.

(** On records that hold their content as strings the function returns,
    for every window size, the joined slices of every group. *)
Lemma create_expanded_content_strs data W n key_field episodes chunks :
  groupby_episode data key_field = Ok episodes →
  Z.of_nat (length episodes) = n →
  Forall2 contents_of episodes chunks →
  create_expanded_content data W n key_field
    = Ok (joined_slices W <$> chunks).
Proof.
  intros Heps Hn Hchunks. apply create_expanded_content_inv.
  exists episodes, ((λ group : list string, VStr <$> group) <$> chunks).
  repeat split; [done..| |].
  - by apply traverse_contents.
  - apply traverse_expand_strs.
Qed.

(** Well-formed data always groups, and every group has its strings. *)
Lemma contents_of_defined (episode : list record) :
  Forall (λ d : record, ∃ s, d !! "content" = Some (VStr s)) episode →
  ∃ group, contents_of episode group.
Proof.
  induction 1 as [|d ep [s Hs] _ [group IH]].
  - exists []. constructor.
  - exists (s :: group). by constructor.
Qed.

Lemma well_formed_contents key_field data :
  well_formed key_field data →
  ∃ episodes chunks,
    groupby_episode data key_field = Ok episodes ∧
    Forall2 contents_of episodes chunks.
Proof.
  intros Hwf.
  destruct (groupby_episode_defined data key_field) as [eps Heps].
  { eapply Forall_impl; [exact Hwf|]. by intros d [? _]. }
  exists eps.
  pose proof (groupby_episode_Ok _ _ _ Heps) as [Hcat _].
  assert (Hall : Forall (Forall (λ d : record,
            ∃ s, d !! "content" = Some (VStr s))) eps).
  { apply Forall_forall. intros ep Hep. apply Forall_forall. intros d Hd.
    unfold well_formed in Hwf. rewrite Forall_forall in Hwf.
    apply (Hwf d). rewrite <- Hcat. apply list_elem_of_In, in_concat.
    exists ep. by rewrite <- !list_elem_of_In. }
  assert (∃ chunks, Forall2 contents_of eps chunks) as [chunks Hchunks];
    [|by exists chunks].
  clear -Hall. induction Hall as [|ep eps Hep _ (chunks & IH)].
  - exists []. constructor.
  - destruct (contents_of_defined ep Hep) as [group Hgroup].
    exists (group :: chunks). by constructor.
Qed.



(** ** Strings *)

Lemma string_app_assoc (s1 s2 s3 : string) :
  (s1 +:+ s2) +:+ s3 = s1 +:+ s2 +:+ s3.
Proof.
  induction s1 as [|a s1 IH]; [done|].
  change (String a ((s1 +:+ s2) +:+ s3) = String a (s1 +:+ s2 +:+ s3)).
  by rewrite IH.
Qed.

Lemma string_app_nil_r (s : string) : s +:+ "" = s.
Proof.
  induction s as [|a s IH]; [done|].
  change (String a (s +:+ "") = String a s). by rewrite IH.
Qed.

Lemma substring_of_refl (s : string) : substring_of s s.
Proof. exists "", "". by rewrite string_app_nil_r. Qed.

(** Every joined item occurs in the joined string. *)
Lemma join_middle sep (l1 : list string) x l2 :
  substring_of x (join sep (l1 ++ x :: l2)).
Proof.
  induction l1 as [|a l1 IH].
  - destruct l2 as [|y l2].
    + apply substring_of_refl.
    + by exists "", (sep +:+ join sep (y :: l2)).
  - change ((a :: l1) ++ x :: l2) with (a :: (l1 ++ x :: l2)).
    destruct (l1 ++ x :: l2) as [|y l] eqn:E; [by destruct l1|].
    destruct IH as (pre & post & IH).
    exists (a +:+ sep +:+ pre), post.
    change (join sep (a :: y :: l)) with (a +:+ sep +:+ join sep (y :: l)).
    by rewrite IH, !string_app_assoc.
Qed.

Lemma join_elem sep (l : list string) x :
  x ∈ l → substring_of x (join sep l).
Proof. intros (l1 & l2 & ->)%list_elem_of_split. apply join_middle. Qed.

(** ** The window around a position *)
Section windows.
Context {A : Type}.

(** For a non-negative window the slice at [i] holds position [i]. *)
Lemma py_slice_covers (xs : list A) (W : Z) i x :
  (0 ≤ W)%Z → xs !! i = Some x →
  x ∈ py_slice xs (Z.max 0 (Z.of_nat i - W)) (Z.of_nat i + W + 1)%Z.
Proof.
  intros HW Hx. pose proof (lookup_lt_Some _ _ _ Hx) as Hi.
  apply list_elem_of_lookup.
  exists (i - Z.to_nat (Z.max 0 (Z.of_nat i - W))).
  unfold py_slice, adjust_index.
  rewrite !(proj2 (Z.ltb_ge _ _)) by lia.
  rewrite lookup_take_lt by lia. rewrite lookup_drop.
  rewrite <- Hx. f_equal. lia.
Qed.

(** With [W = 0] the slice at [i] is the item at [i] alone. *)
Lemma py_slice_single (xs : list A) i x :
  xs !! i = Some x →
  py_slice xs (Z.max 0 (Z.of_nat i - 0)) (Z.of_nat i + 0 + 1)%Z = [x].
Proof.
  intros Hx. pose proof (lookup_lt_Some _ _ _ Hx) as Hi.
  unfold py_slice, adjust_index.
  rewrite !(proj2 (Z.ltb_ge _ _)) by lia.
  replace (Z.to_nat (Z.min (Z.max 0 (Z.of_nat i - 0)) (Z.of_nat (length xs))))
    with i by lia.
  replace (Z.to_nat _) with 1 by lia.
  by rewrite (drop_S _ _ _ Hx).
Qed.

(** The number of items in the window at [i], for a non-negative
    window size. *)
Lemma length_window_nonneg (xs : list A) (W : Z) i :
  (0 ≤ W)%Z → i < length xs →
  Z.of_nat (length
    (py_slice xs (Z.max 0 (Z.of_nat i - W)) (Z.of_nat i + W + 1)%Z)) =
  (Z.min (Z.of_nat i + W + 1) (Z.of_nat (length xs))
    - Z.max 0 (Z.of_nat i - W))%Z.
Proof.
  intros HW Hi. rewrite length_py_slice_nonneg by lia. lia.
Qed.
End windows.

Lemma joined_slices_identity (group : list string) :
  joined_slices 0 group = group.
Proof.
  unfold joined_slices. apply list_eq. intros i.
  rewrite list_lookup_imap. destruct (group !! i) as [x|] eqn:E; [|done].
  simpl. by rewrite (py_slice_single _ _ _ E).
Qed.

Lemma length_joined_slices W (group : list string) :
  length (joined_slices W group) = length group.
Proof. unfold joined_slices. apply length_imap. Qed.

Lemma joined_slices_lookup W (group : list string) i s :
  joined_slices W group !! i = Some s →
  s = join " " (py_slice group (Z.max 0 (Z.of_nat i - W))
                  (Z.of_nat i + W + 1)%Z) ∧ i < length group.
Proof.
  unfold joined_slices. rewrite list_lookup_imap.
  destruct (group !! i) as [x|] eqn:E; [|done].
  intros [= <-]. split; [done|]. by eapply lookup_lt_Some.
Qed.

(** ** The Episode Grouper: claims C3 and C4 *)

(** C3. Whenever [groupby_episode] returns, the groups concatenated in
    order are the input sequence itself, so no record is reordered,
    dropped or duplicated, and no record is moved between episodes: the
    groups are the maximal runs of equal key of that sequence (no group
    empty, one key inside a group, another key in the next group), so
    the cuts between groups fall exactly where the key changes. It
    returns for every input except one holding a record without the key
    field, where the lookup raises [KeyError] and no groups are
    produced. *)
Theorem C3_groupby_episode_concat (data : list record) (key_field : string) :
  match groupby_episode data key_field with
  | Ok episodes =>
      concat episodes = data ∧
      is_runs (λ r : record, r !! key_field) episodes
  | Raise e =>
      e = KeyError ∧ Exists (λ r : record, r !! key_field = None) data
  end.
Proof.
  destruct (groupby_episode data key_field) as [episodes|e] eqn:E.
  - by apply groupby_episode_Ok.
  - by apply groupby_episode_Raise.
Qed.

(** C4. The groups of [groupby_episode] are the maximal runs of equal
    key value: no group is empty, the key is constant inside a group and
    changes from each group to the next; walking the input, the next
    record stays in the current group exactly when its key equals the
    current one and opens the next group otherwise; and two records
    separated by a key change lie in distinct groups even when their
    own keys are equal, as in the input with keys e, f, e. The grouper
    returns whenever every record carries the key field. *)
Theorem C4_groupby_episode_runs :
  (∀ (data : list record) (key_field : string),
    Forall (λ r : record, is_Some (r !! key_field)) data →
    ∃ episodes, groupby_episode data key_field = Ok episodes) ∧
  (∀ (data : list record) (key_field : string) episodes,
    groupby_episode data key_field = Ok episodes →
    concat episodes = data ∧
    is_runs (λ r : record, r !! key_field) episodes ∧
    (∀ i r r', data !! i = Some r → data !! S i = Some r' →
      group_index episodes (S i) =
        if decide (r !! key_field = r' !! key_field)
        then group_index episodes i
        else S (group_index episodes i)) ∧
    (∀ i m j r r', i < m ≤ j →
      data !! i = Some r → data !! m = Some r' →
      r !! key_field ≠ r' !! key_field →
      group_index episodes i < group_index episodes j)) ∧
  groupby_episode split_runs "video_id"
    = Ok [[chunk "e" "A"]; [chunk "f" "B"]; [chunk "e" "C"]].
Proof.
  split; [exact groupby_episode_defined|].
  split; [|by vm_compute].
  intros data key_field episodes Heps.
  apply groupby_episode_Ok in Heps as [Hcat Hruns].
  split; [done|]. split; [done|]. subst data. split.
  - intros i r r' Hr Hr'.
    destruct (group_index_step _ _ _ _ _ Hruns Hr Hr') as [[Hk ->]|[Hk ->]].
    + by rewrite decide_True.
    + by rewrite decide_False.
  - intros i m j r r' Himj Hr Hr' Hne.
    by eapply (group_index_split (λ r : record, r !! key_field)).
Qed.

Lemma C4_groupby_episode_runs_witness :
  concat [[chunk "e" "A"]; [chunk "f" "B"]; [chunk "e" "C"]] = split_runs ∧
  group_index [[chunk "e" "A"]; [chunk "f" "B"]; [chunk "e" "C"]] 0
    < group_index [[chunk "e" "A"]; [chunk "f" "B"]; [chunk "e" "C"]] 2.
Proof.
  destruct (proj1 (proj2 C4_groupby_episode_runs) split_runs "video_id"
    [[chunk "e" "A"]; [chunk "f" "B"]; [chunk "e" "C"]])
    as (Hcat & _ & _ & Hsplit).
  - vm_compute. reflexivity.
  - split; [exact Hcat|].
    apply (Hsplit 0 1 2 (chunk "e" "A") (chunk "f" "B")).
    + lia.
    + reflexivity.
    + reflexivity.
    + vm_compute. discriminate.
Defined.

(** ** The Window Joiner: claims C1, C2, C8, C9 and C10 *)

(** C1. For a group of text chunks and a non-negative window size [W],
    the inner loop yields at each position [i] the chunks at positions
    [max(0, i-W)] to [i+W] that exist in the group, joined by single
    spaces; [create_expanded_content] yields exactly that for every
    group of its input; and on the group A, B, C, D with [W = 1] it
    yields "A B", "A B C", "B C D", "C D". *)
Theorem C1_window_joiner :
  (∀ (group : list string) (W : Z), (0 ≤ W)%Z →
    expand_episode W (VStr <$> group) = Ok (window_joiner W group) ∧
    ∀ i, i < length group →
      window_joiner W group !! i = Some (join " " (window_chunks W group i))) ∧
  (∀ data W n key_field episodes chunks, (0 ≤ W)%Z →
    groupby_episode data key_field = Ok episodes →
    Z.of_nat (length episodes) = n →
    Forall2 contents_of episodes chunks →
    create_expanded_content data W n key_field
      = Ok (window_joiner W <$> chunks)) ∧
  create_expanded_content abcd 1 1 "video_id"
    = Ok [["A B"; "A B C"; "B C D"; "C D"]].
Proof.
  split; [|split; [|by vm_compute]].
  - intros group W HW. split.
    + by rewrite expand_episode_strs, joined_slices_window_joiner.
    + intros i Hi. unfold window_joiner. rewrite list_lookup_imap.
      by destruct (lookup_lt_is_Some_2 group i Hi) as [x ->].
  - intros data W n key_field episodes chunks HW Heps Hn Hchunks.
    rewrite (create_expanded_content_strs _ _ _ _ _ _ Heps Hn Hchunks).
    f_equal. apply list_fmap_ext. intros _ group _.
    by apply joined_slices_window_joiner.
Qed.

Lemma C1_window_joiner_witness :
  create_expanded_content abcd 1 1 "video_id"
    = Ok (window_joiner 1 <$> [["A"; "B"; "C"; "D"]]).
Proof.
  apply (proj1 (proj2 C1_window_joiner) abcd 1%Z 1%Z "video_id" [abcd]).
  - lia.
  - vm_compute. reflexivity.
  - reflexivity.
  - repeat constructor.
Defined.



(** C8 (as stated, refuted). In a group of one chunk with [W = 2] the
    window at the first, which is also the last, position holds one
    chunk: four fewer than the [2W+1 = 5] of an unclamped window, more
    than [W+1 = 3]. *)
Lemma C8_edge_windows_counterexample :
  create_expanded_content [chunk "e" "A"] 2 1 "video_id" = Ok [["A"]] ∧
  length (window 2 [VStr "A"] 0) = 1 ∧
  ¬ (2 * 2 + 1 - Z.of_nat (length (window 2 [VStr "A"] 0)) ≤ 2 + 1)%Z.
Proof. split; [by vm_compute|]. split; [done|]. vm_compute. by intros H. Qed.

(** C8 (amended). For [W ≥ 0] the window at position [i] of a group of
    [n] chunks is the contiguous part of the group from [max(0, i-W)]
    up to [min(n, i+W+1)]: between 1 and [2W+1] chunks, never padded
    and never wrapped. At the first and at the last position it holds
    [min(W+1, n)] chunks, which is at most [W+1] fewer than [2W+1] when
    the group has at least [W] chunks. For [W = 0] the expanded content
    of every record is its original content. *)
Theorem C8_edge_windows :
  (∀ (episode : list value) (W : Z) i, (0 ≤ W)%Z → i < length episode →
    let w := window W episode (Z.of_nat i) in
    Z.of_nat (length w)
      = (Z.min (Z.of_nat i + W + 1) (Z.of_nat (length episode))
          - Z.max 0 (Z.of_nat i - W))%Z ∧
    (1 ≤ Z.of_nat (length w) ≤ 2 * W + 1)%Z ∧
    ∃ pre post,
      episode = pre ++ w ++ post ∧
      Z.of_nat (length pre) = Z.max 0 (Z.of_nat i - W)) ∧
  (∀ (episode : list value) (W : Z), (0 ≤ W)%Z → episode ≠ [] →
    let n := Z.of_nat (length episode) in
    let first := Z.of_nat (length (window W episode 0)) in
    let last := Z.of_nat (length (window W episode (n - 1))) in
    first = Z.min (W + 1) n ∧ last = Z.min (W + 1) n ∧
    ((W ≤ n)%Z → (2 * W + 1 - first ≤ W + 1 ∧ 2 * W + 1 - last ≤ W + 1)%Z)) ∧
  (∀ data n key_field episodes chunks,
    groupby_episode data key_field = Ok episodes →
    Z.of_nat (length episodes) = n →
    Forall2 contents_of episodes chunks →
    create_expanded_content data 0 n key_field = Ok chunks).
Proof.
  split; [|split].
  - intros episode W i HW Hi w. subst w. unfold window.
    pose proof (length_window_nonneg episode W i HW Hi) as Hlen.
    split; [done|]. split; [lia|].
    destruct (py_slice_infix episode (Z.max 0 (Z.of_nat i - W))
      (Z.of_nat i + W + 1)%Z) as (pre & post & Hcut & Hpre).
    exists pre, post. split; [done|]. rewrite Hpre. unfold adjust_index.
    rewrite (proj2 (Z.ltb_ge _ _)) by lia. lia.
  - intros episode W HW Hne n first last. subst n first last.
    assert (0 < length episode) as Hpos by (destruct episode; simpl; [done|lia]).
    unfold window.
    pose proof (length_window_nonneg episode W 0 HW Hpos) as Hfirst.
    pose proof (length_window_nonneg episode W (length episode - 1) HW
      ltac:(lia)) as Hlast.
    replace (Z.of_nat (length episode - 1)) with (Z.of_nat (length episode) - 1)%Z
      in Hlast by lia.
    change (Z.of_nat 0) with 0%Z in Hfirst.
    rewrite Hfirst, Hlast. lia.
  - intros data n key_field episodes chunks Heps Hn Hchunks.
    rewrite (create_expanded_content_strs _ _ _ _ _ _ Heps Hn Hchunks).
    f_equal. rewrite <- (list_fmap_id chunks) at 2.
    apply list_fmap_ext. intros _ group _. apply joined_slices_identity.
Qed.

Lemma C8_edge_windows_witness :
  Z.of_nat (length (window 1 [VStr "A"; VStr "B"; VStr "C"; VStr "D"] 0))
    = Z.min (1 + 1) 4 ∧
  create_expanded_content abcd 0 1 "video_id"
    = Ok [["A"; "B"; "C"; "D"]].
Proof.
  split.
  - apply (proj1 (proj2 C8_edge_windows)
      [VStr "A"; VStr "B"; VStr "C"; VStr "D"] 1%Z); [lia|discriminate].
  - apply (proj2 (proj2 C8_edge_windows) abcd 1%Z "video_id" [abcd]).
    + vm_compute. reflexivity.
    + reflexivity.
    + repeat constructor.
Defined.

(** C9. For [W ≥ 0], on records grouped into the expected number of
    episodes, the function returns one expanded string per record, and
    the record's own content occurs in it as a contiguous substring. *)
Theorem C9_content_in_expanded data W n key_field episodes chunks :
  (0 ≤ W)%Z →
  groupby_episode data key_field = Ok episodes →
  Z.of_nat (length episodes) = n →
  Forall2 contents_of episodes chunks →
  ∃ out,
    create_expanded_content data W n key_field = Ok out ∧
    Forall2 (Forall2 (λ (d : record) e,
        ∃ c, d !! "content" = Some (VStr c) ∧ substring_of c e))
      episodes out.
Proof.
  intros HW Heps Hn Hchunks. exists (joined_slices W <$> chunks).
  split; [by eapply create_expanded_content_strs|].
  apply Forall2_fmap_r. eapply Forall2_impl; [exact Hchunks|].
  intros ep group Hep. simpl. apply Forall2_same_length_lookup. split.
  - rewrite length_joined_slices. by eapply Forall2_length.
  - intros i d e Hd He.
    destruct (Forall2_lookup_l _ _ _ _ _ Hep Hd) as (c & Hc & Hdc).
    exists c. split; [done|].
    apply joined_slices_lookup in He as [-> _].
    by apply join_elem, py_slice_covers.
Qed.

Lemma C9_content_in_expanded_witness :
  ∃ out,
    create_expanded_content two_groups 1 2 "video_id" = Ok out ∧
    Forall2 (Forall2 (λ (d : record) e,
        ∃ c, d !! "content" = Some (VStr c) ∧ substring_of c e))
      [[chunk "e" "A"; chunk "e" "B"];
       [chunk "f" "X"; chunk "f" "Y"; chunk "f" "Z"]] out.
Proof.
  apply (C9_content_in_expanded two_groups 1%Z 2%Z "video_id" _
    [["A"; "B"]; ["X"; "Y"; "Z"]]).
  - lia.
  - vm_compute. reflexivity.
  - reflexivity.
  - repeat constructor.
Defined.

(** C10 (as stated, refuted). With [W = -2] on the group A, B, C, D the
    function returns, and its first expanded string is "C": the slice
    end [0 - 2 + 1 = -1] counts from the end of the group. *)
Lemma C10_negative_window_counterexample :
  create_expanded_content abcd (-2) 1 "video_id" = Ok [["C"; ""; ""; ""]] ∧
  ¬ Forall (Forall (λ s, s = "")) [["C"; ""; ""; ""]].
Proof.
  split; [by vm_compute|].
  intros H. apply Forall_cons in H as [H _]. by apply Forall_cons in H as [H _].
Qed.

(** C10 (amended). For [W < 0], on records grouped into the expected
    number of episodes with string contents, the function returns one
    string per record. The string at position [i] is empty whenever the
    slice end [i+W+1] is not negative, so at every position when
    [W = -1]; where [i+W+1] is negative the end counts from the end of
    the group and the string joins the chunks from position [i-W] up to
    [len+i+W+1]. *)
Theorem C10_negative_window data W n key_field episodes chunks :
  (W < 0)%Z →
  groupby_episode data key_field = Ok episodes →
  Z.of_nat (length episodes) = n →
  Forall2 contents_of episodes chunks →
  ∃ out,
    create_expanded_content data W n key_field = Ok out ∧
    Forall2 (λ (group o : list string),
        length o = length group ∧
        ∀ i s, o !! i = Some s →
          if decide (0 ≤ Z.of_nat i + W + 1)%Z then s = ""
          else s = join " " (py_slice group (Z.of_nat i - W)
                 (Z.max 0 (Z.of_nat (length group) + Z.of_nat i + W + 1))))
      chunks out ∧
    (W = (-1)%Z → Forall (Forall (λ s, s = "")) out).
Proof.
  intros HW Heps Hn Hchunks. exists (joined_slices W <$> chunks).
  assert (Hpos : ∀ (group : list string) i s,
    joined_slices W group !! i = Some s →
    (0 ≤ Z.of_nat i + W + 1)%Z → s = "").
  { intros group i s [-> _]%joined_slices_lookup Hi.
    by rewrite py_slice_empty by lia. }
  split; [by eapply create_expanded_content_strs|]. split.
  - apply Forall2_fmap_r, Forall2_same_length_lookup.
    split; [done|]. intros j group group' Hj Hj'. simplify_eq.
    split; [apply length_joined_slices|]. intros i s Hs.
    case_decide as Hi; [by eapply Hpos|].
    apply joined_slices_lookup in Hs as [-> _].
    rewrite py_slice_neg_stop by lia. do 2 f_equal; lia.
  - intros ->. apply Forall_fmap, Forall_forall. intros group _. simpl.
    apply Forall_forall. intros s (i & Hs)%list_elem_of_lookup.
    eapply Hpos; [done|lia].
Qed.

Lemma C10_negative_window_witness :
  ∃ out,
    create_expanded_content abcd (-1) 1 "video_id" = Ok out ∧
    Forall2 (λ (group o : list string),
        length o = length group ∧
        ∀ i s, o !! i = Some s →
          if decide (0 ≤ Z.of_nat i + (-1) + 1)%Z then s = ""
          else s = join " " (py_slice group (Z.of_nat i - (-1))
                 (Z.max 0 (Z.of_nat (length group) + Z.of_nat i + (-1) + 1))))
      [["A"; "B"; "C"; "D"]] out ∧
    ((-1)%Z = (-1)%Z → Forall (Forall (λ s, s = "")) out).
Proof.
  apply (C10_negative_window abcd (-1)%Z 1%Z "video_id" [abcd]).
  - lia.
  - vm_compute. reflexivity.
  - reflexivity.
  - repeat constructor.
Defined.

(** ** The episode count check: claim C6 *)

(** C6. [create_expanded_content] raises [AssertionError] exactly when
    the grouper returned a number of groups other than [num_episodes];
    no later step raises it, and a mismatch never yields a result. On
    well-formed records with the matching count it returns, for every
    window size. *)
Theorem C6_episode_count_assertion :
  (∀ data W n key_field,
    create_expanded_content data W n key_field = Raise AssertionError ↔
    ∃ episodes,
      groupby_episode data key_field = Ok episodes ∧
      Z.of_nat (length episodes) ≠ n) ∧
  (∀ data W key_field, well_formed key_field data →
    ∃ episodes out,
      groupby_episode data key_field = Ok episodes ∧
      create_expanded_content data W (Z.of_nat (length episodes)) key_field
        = Ok out).
Proof.
  split.
  - intros data W n key_field. rewrite create_expanded_content_eq. split.
    + intros [Heps|(eps & Heps & Hrest)]%bind_Raise.
      { by apply groupby_episode_Raise in Heps as [[=] _]. }
      exists eps. split; [done|].
      apply bind_Raise in Hrest as [Hassert|([] & Hassert & Hrest)].
      { unfold py_assert in Hassert.
        by destruct (Z.eqb_spec (Z.of_nat (length eps)) n). }
      apply bind_Raise in Hrest as [Hcl|(cl & _ & Hout)].
      * apply traverse_Raise, Exists_exists in Hcl as (ep & _ & Hep).
        apply traverse_Raise, Exists_exists in Hep as (d & _ & Hd).
        by apply getitem_Raise in Hd as [[=] _].
      * apply traverse_Raise, Exists_exists in Hout as (c & _ & Hc).
        by apply expand_episode_Raise in Hc.
    + intros (eps & -> & Hne). simpl. unfold py_assert.
      by destruct (Z.eqb_spec (Z.of_nat (length eps)) n).
  - intros data W key_field Hwf.
    destruct (well_formed_contents _ _ Hwf) as (eps & chunks & Heps & Hchunks).
    exists eps, (joined_slices W <$> chunks). split; [done|].
    by eapply create_expanded_content_strs.
Qed.

Lemma C6_episode_count_assertion_witness :
  create_expanded_content two_groups default_window_size
    default_num_episodes default_key_field = Raise AssertionError ∧
  ∃ episodes out,
    groupby_episode two_groups "video_id" = Ok episodes ∧
    create_expanded_content two_groups 1 (Z.of_nat (length episodes))
      "video_id" = Ok out.
Proof.
  split.
  - apply (proj1 C6_episode_count_assertion two_groups default_window_size
      default_num_episodes default_key_field).
    eexists. split; [vm_compute; reflexivity|]. vm_compute. discriminate.
  - apply (proj2 C6_episode_count_assertion two_groups 1%Z "video_id").
    repeat constructor; vm_compute; eauto.
Defined.

(** ** The Field Merger: claims C5 and C7 *)

(** C5 (the code falls short of the claim). [join_expanded_content]
    returns its first argument as it received it. On the five records
    of the two example groups and their five expanded strings, no
    returned record has the field [expanded_content], so reading the
    field back does not give the strings supplied, and the notebook's
    own post-check assertion fails. *)
Theorem C5_join_expanded_content_sets_no_field :
  let flattened_content := ["A B"; "A B"; "X Y"; "X Y Z"; "Y Z"] in
  let merged :=
    join_expanded_content two_groups flattened_content "expanded_content" in
  create_expanded_content two_groups 1 2 "video_id"
    = Ok [["A B"; "A B"]; ["X Y"; "X Y Z"; "Y Z"]] ∧
  length flattened_content = length two_groups ∧
  merged = two_groups ∧
  (λ d : record, d !! "expanded_content") <$> merged
    = [None; None; None; None; None] ∧
  (λ d : record, d !! "expanded_content") <$> merged
    ≠ (λ s, Some (VStr s)) <$> flattened_content ∧
  post_check merged = Raise AssertionError.
Proof. by vm_compute. Qed.


(** * Further properties of the notebook's code *)

(** ** More on the Episode Grouper *)

Lemma groupby_episode_Ok_keys data key_field episodes :
  groupby_episode data key_field = Ok episodes →
  Forall (λ r : record, is_Some (r !! key_field)) data.
Proof.
  intros Heps. pose proof Heps as Heps'. revert Heps'.
  rewrite groupby_episode_eq. intros (gs & Hgs & [= <-])%bind_Ok.
  apply groupby_episode_Ok in Heps as [<- _].
  apply groupby_keyed in Hgs as [Hkeyed _].
  apply Forall_forall. intros r Hr.
  apply list_elem_of_In, in_concat in Hr as (g & Hg & Hr).
  apply list_elem_of_In, list_elem_of_fmap in Hg as ([k g'] & -> & Hkg).
  unfold keyed in Hkeyed. rewrite Forall_forall in Hkeyed.
  destruct (Hkeyed _ Hkg) as [_ Hall]. rewrite Forall_forall in Hall.
  exists k. apply getitem_Ok, Hall. by apply list_elem_of_In.
Qed.

Lemma grouper_length (key_field : string) it : ∀ tgt grp gs,
  grouper (λ x : record, getitem x key_field) tgt grp it = Ok gs →
  length gs = S (key_changes (λ r : record, r !! key_field) (Some tgt) it).
Proof.
  induction it as [|x it IH]; intros tgt grp gs; simpl.
  - by intros [= <-].
  - intros (k & Hk & Hgs)%bind_Ok. apply getitem_Ok in Hk. rewrite Hk.
    destruct (decide (k = tgt)) as [->|Hne].
    + rewrite decide_True by done. by apply IH in Hgs.
    + rewrite decide_False by congruence.
      apply bind_Ok in Hgs as (rest & Hrest & [= <-]).
      apply IH in Hrest. simpl. by rewrite Hrest.
Qed.

Lemma key_changes_le {A V} `{EqDecision V} (kv : A → V) l :
  ∀ prev, key_changes kv prev l ≤ length l.
Proof.
  induction l as [|x l IH]; intros prev; simpl; [done|].
  specialize (IH (kv x)). case_decide; lia.
Qed.

(** Feeding the rest of the current run to the grouper only grows the
    group it is gathering. *)
Lemma grouper_app_const {A K} `{EqDecision K} (keyfunc : A → result K)
    it1 : ∀ tgt grp it2,
  Forall (λ x, keyfunc x = Ok tgt) it1 →
  grouper keyfunc tgt grp (it1 ++ it2) = grouper keyfunc tgt (grp ++ it1) it2.
Proof.
  induction it1 as [|x it1 IH]; intros tgt grp it2 Hall; simpl.
  - by rewrite app_nil_r.
  - apply Forall_cons in Hall as [Hx Hall]. rewrite Hx. simpl.
    rewrite decide_True by done. rewrite IH by done.
    by rewrite <- app_assoc.
Qed.

Lemma grouper_runs (key_field : string) (groups : list (list record)) :
  ∀ g k,
  is_runs (λ r : record, r !! key_field) (g :: groups) →
  Forall (λ r : record, r !! key_field = Some k) g →
  Forall (Forall (λ r : record, is_Some (r !! key_field))) groups →
  ∃ gs,
    grouper (λ x : record, getitem x key_field) k g (concat groups) = Ok gs ∧
    snd <$> gs = g :: groups.
Proof.
  induction groups as [|g' groups IH]; intros g k Hruns Hg Hkeys.
  - exists [(k, g)]. by split.
  - pose proof (is_runs_tail _ _ _ Hruns) as Htail.
    destruct Hruns as [Hall Hadj].
    apply Forall_cons in Hall as [[Hne _] Hall].
    apply Forall_cons in Hall as [[Hne' Hconst'] _].
    apply Forall_cons in Hkeys as [Hkeys' Hkeys].
    destruct g' as [|y g']; [done|].
    apply Forall_cons in Hkeys' as [[k' Hy] _].
    assert (Hg' : Forall (λ r : record, r !! key_field = Some k') (y :: g')).
    { apply Forall_forall. intros r Hr. rewrite <- Hy.
      apply Hconst'; [done|by left]. }
    assert (Hkk : k' ≠ k).
    { destruct g as [|x g]; [done|].
      apply Forall_cons in Hg as [Hx _]. intros ->.
      apply (Hadj 0 (x :: g) (y :: g') x y); [done|done|by left|by left|].
      by rewrite Hx, Hy. }
    destruct (IH (y :: g') k' Htail Hg' Hkeys) as (gs & Hgs & Hsnd).
    exists ((k, g) :: gs). split; [|by rewrite fmap_cons, Hsnd].
    change (concat ((y :: g') :: groups)) with (y :: (g' ++ concat groups)).
    simpl. rewrite (proj2 (getitem_Ok y key_field k') Hy). simpl.
    rewrite decide_False by done.
    apply Forall_cons in Hg' as [_ Hg'].
    rewrite grouper_app_const
      by (eapply Forall_impl; [exact Hg'|]; intros r Hr; by apply getitem_Ok).
    change ([y] ++ g') with (y :: g'). by rewrite Hgs.
Qed.

Lemma groupby_episode_runs key_field (groups : list (list record)) :
  is_runs (λ r : record, r !! key_field) groups →
  Forall (Forall (λ r : record, is_Some (r !! key_field))) groups →
  groupby_episode (concat groups) key_field = Ok groups.
Proof.
  intros Hruns Hkeys. rewrite groupby_episode_eq.
  destruct groups as [|g groups]; [done|].
  pose proof Hruns as [Hall _].
  apply Forall_cons in Hall as [[Hne Hconst] _].
  apply Forall_cons in Hkeys as [Hg Hkeys].
  destruct g as [|x g]; [done|].
  pose proof Hg as [[k Hx] _]%Forall_cons.
  assert (Hgk : Forall (λ r : record, r !! key_field = Some k) (x :: g)).
  { apply Forall_forall. intros r Hr. rewrite <- Hx.
    apply Hconst; [done|by left]. }
  destruct (grouper_runs key_field groups (x :: g) k Hruns Hgk Hkeys)
    as (gs & Hgs & Hsnd).
  change (concat ((x :: g) :: groups)) with (x :: (g ++ concat groups)).
  simpl. rewrite (proj2 (getitem_Ok x key_field k) Hx). simpl.
  apply Forall_cons in Hgk as [_ Hgk].
  rewrite grouper_app_const
    by (eapply Forall_impl; [exact Hgk|]; intros r Hr; by apply getitem_Ok).
  change ([x] ++ g) with (x :: g). rewrite Hgs. simpl. f_equal. exact Hsnd.
Qed.

(** X1. [groupby_episode] fails exactly on inputs holding a record
    without the key field, and then always with [KeyError]; on every
    other input it returns groups. *)
Theorem X1_groupby_episode_fails_on_missing_key (data : list record)
    (key_field : string) :
  (∀ e, groupby_episode data key_field = Raise e ↔
        e = KeyError ∧ Exists (λ r : record, r !! key_field = None) data) ∧
  ((∃ episodes, groupby_episode data key_field = Ok episodes) ↔
   Forall (λ r : record, is_Some (r !! key_field)) data).
Proof.
  assert (Hok : (∃ episodes, groupby_episode data key_field = Ok episodes) ↔
    Forall (λ r : record, is_Some (r !! key_field)) data).
  { split; [|apply groupby_episode_defined].
    intros [eps Heps]. by eapply groupby_episode_Ok_keys. }
  split; [|done]. intros e. split; [apply groupby_episode_Raise|].
  intros [-> Hex].
  destruct (groupby_episode data key_field) as [eps|e] eqn:E.
  - assert (Hall : Forall (λ r : record, is_Some (r !! key_field)) data)
      by (apply Hok; eauto).
    apply Exists_exists in Hex as (r & Hr & Hnone).
    rewrite Forall_forall in Hall. destruct (Hall r Hr) as [v Hv]. congruence.
  - by apply groupby_episode_Raise in E as [-> _].
Qed.

(** X2. The number of groups is the number of maximal runs of equal key
    in the input: one for the first record and one more for every
    record whose key differs from its predecessor's. So there are no
    groups exactly for the empty input, and never more groups than
    records. *)
Theorem X2_groupby_episode_count (data : list record) (key_field : string)
    episodes :
  groupby_episode data key_field = Ok episodes →
  length episodes = run_count (λ r : record, r !! key_field) data ∧
  (episodes = [] ↔ data = []) ∧
  length episodes ≤ length data.
Proof.
  rewrite groupby_episode_eq. intros (gs & Hgs & [= <-])%bind_Ok.
  rewrite length_fmap. destruct data as [|x data]; simpl in *.
  - injection Hgs as <-. by repeat split.
  - apply bind_Ok in Hgs as (k & Hk & Hgs).
    apply grouper_length in Hgs. apply getitem_Ok in Hk. rewrite Hk.
    pose proof (key_changes_le (λ r : record, r !! key_field) data (Some k)).
    repeat split; [done| |done|lia].
    intros Hnil. apply fmap_nil_inv in Hnil. by subst gs.
Qed.

Lemma X2_groupby_episode_count_witness :
  length [[chunk "e" "A"]; [chunk "f" "X"]]
    = run_count (λ r : record, r !! "video_id") two_episodes ∧
  ([[chunk "e" "A"]; [chunk "f" "X"]] = [] ↔ two_episodes = []) ∧
  length [[chunk "e" "A"]; [chunk "f" "X"]] ≤ length two_episodes.
Proof.
  apply (X2_groupby_episode_count two_episodes "video_id").
  vm_compute. reflexivity.
Defined.

(** X3. Grouping inverts flattening on run partitions: when a list of
    groups cuts its records into maximal runs of equal key (no group
    empty, one key per group, a different key in the next group) and
    every record carries the key field, [groupby_episode] applied to
    the flattened records returns exactly those groups. With C3 and C4
    the grouper's output is therefore the only such partition. *)
Theorem X3_groupby_episode_of_runs (key_field : string)
    (groups : list (list record)) :
  is_runs (λ r : record, r !! key_field) groups →
  Forall (Forall (λ r : record, is_Some (r !! key_field))) groups →
  groupby_episode (concat groups) key_field = Ok groups.
Proof. apply groupby_episode_runs. Qed.

Lemma X3_groupby_episode_of_runs_witness :
  groupby_episode (concat [[chunk "e" "A"]; [chunk "f" "X"]]) "video_id"
  = Ok [[chunk "e" "A"]; [chunk "f" "X"]].
Proof.
  apply (X3_groupby_episode_of_runs "video_id").
  - split.
    + repeat constructor; try done.
      all: intros x y Hx Hy; set_unfold; destruct_or!; by subst.
    + intros [|[|j]] g g' x y Hg Hg' Hx Hy; simplify_eq/=.
      set_unfold. destruct_or!; subst; by vm_compute.
  - repeat first [apply Forall_nil | apply Forall_cons_2]; vm_compute; eauto.
Defined.

(** ** More on the expanded content *)

Lemma length_concat_Forall2 {A B} (l : list (list A)) (k : list (list B)) :
  Forall2 (λ a b, length a = length b) l k →
  length (concat l) = length (concat k).
Proof.
  induction 1 as [|a b l k Hab _ IH]; simpl; [done|].
  by rewrite !length_app, Hab, IH.
Qed.

Lemma py_slice_whole {A} (xs : list A) (stop : Z) :
  (Z.of_nat (length xs) ≤ stop)%Z → py_slice xs 0 stop = xs.
Proof.
  intros Hstop. unfold py_slice, adjust_index.
  rewrite !(proj2 (Z.ltb_ge _ _)) by lia.
  replace (Z.to_nat (Z.min 0 (Z.of_nat (length xs)))) with 0 by lia.
  rewrite drop_0. apply take_ge. lia.
Qed.

(** A piece of a list cut at a point in its middle. *)
Lemma take_drop_split {A} (xs : list A) a b c :
  a ≤ b ≤ c →
  take (c - a) (drop a xs) =
  take (b - a) (drop a xs) ++ take (c - b) (drop b xs).
Proof.
  intros [Hab Hbc].
  replace (c - a) with ((b - a) + (c - b)) by lia.
  rewrite <- take_take_drop, drop_drop. do 3 f_equal. lia.
Qed.

(** A slice lies inside every slice with wider non-negative bounds. *)
Lemma py_slice_widen {A} (xs : list A) (start stop start' stop' : Z) :
  (0 ≤ start' ≤ start)%Z → (start ≤ stop ≤ stop')%Z →
  ∃ pre post,
    py_slice xs start' stop' = pre ++ py_slice xs start stop ++ post.
Proof.
  intros Hstart Hstop. unfold py_slice, adjust_index.
  rewrite !(proj2 (Z.ltb_ge _ _)) by lia.
  set (len := Z.of_nat (length xs)).
  set (a' := Z.to_nat (Z.min start' len)). set (a := Z.to_nat (Z.min start len)).
  set (b := Z.to_nat (Z.min stop len)). set (b' := Z.to_nat (Z.min stop' len)).
  replace (Z.to_nat (Z.min stop' len - Z.min start' len)) with (b' - a') by lia.
  replace (Z.to_nat (Z.min stop len - Z.min start len)) with (b - a) by lia.
  exists (take (a - a') (drop a' xs)), (take (b' - b) (drop b xs)).
  rewrite (take_drop_split xs a' a b') by lia.
  by rewrite (take_drop_split xs a b b') by lia.
Qed.

Lemma join_app sep (l1 l2 : list string) :
  l1 ≠ [] → l2 ≠ [] →
  join sep (l1 ++ l2) = join sep l1 +:+ sep +:+ join sep l2.
Proof.
  intros Hl1 Hl2. induction l1 as [|a l1 IH]; [done|].
  destruct l1 as [|b l1].
  - by destruct l2.
  - change (join sep ((a :: b :: l1) ++ l2))
      with (a +:+ sep +:+ join sep ((b :: l1) ++ l2)).
    change (join sep (a :: b :: l1)) with (a +:+ sep +:+ join sep (b :: l1)).
    rewrite IH by done. by rewrite !string_app_assoc.
Qed.

(** Joining a contiguous part of a list gives a substring of the joined
    list. *)
Lemma join_infix sep (pre mid post : list string) :
  substring_of (join sep mid) (join sep (pre ++ mid ++ post)).
Proof.
  destruct mid as [|m mid]; [by exists "", (join sep (pre ++ post))|].
  assert (∃ t, join sep ((m :: mid) ++ post) = join sep (m :: mid) +:+ t)
    as [t Ht].
  { destruct post as [|p post].
    - exists "". by rewrite app_nil_r, string_app_nil_r.
    - exists (sep +:+ join sep (p :: post)). by apply join_app. }
  destruct pre as [|p pre].
  - exists "", t.
    change (join sep ((m :: mid) ++ post) = join sep (m :: mid) +:+ t).
    exact Ht.
  - exists (join sep (p :: pre) +:+ sep), t.
    rewrite join_app, Ht by done. by rewrite !string_app_assoc.
Qed.

Lemma joined_slices_whole W (group : list string) :
  (Z.of_nat (length group) ≤ W + 1)%Z →
  joined_slices W group = replicate (length group) (join " " group).
Proof.
  intros HW. apply list_eq. intros i. unfold joined_slices.
  rewrite list_lookup_imap.
  destruct (group !! i) as [x|] eqn:E; simpl.
  - pose proof (lookup_lt_Some _ _ _ E) as Hi.
    rewrite lookup_replicate_2 by done.
    replace (Z.max 0 (Z.of_nat i - W)) with 0%Z by lia.
    by rewrite py_slice_whole by lia.
  - symmetry. apply lookup_replicate_None. by apply lookup_ge_None.
Qed.

Lemma joined_slices_widen W W' (group : list string) :
  (0 ≤ W ≤ W')%Z →
  Forall2 substring_of (joined_slices W group) (joined_slices W' group).
Proof.
  intros HW. apply Forall2_same_length_lookup.
  split; [by rewrite !length_joined_slices|].
  intros i s s' [-> Hi]%joined_slices_lookup [-> _]%joined_slices_lookup.
  destruct (py_slice_widen group (Z.max 0 (Z.of_nat i - W))
    (Z.of_nat i + W + 1) (Z.max 0 (Z.of_nat i - W'))
    (Z.of_nat i + W' + 1)) as (pre & post & ->); [lia..|].
  apply join_infix.
Qed.

(** X4. Whenever [create_expanded_content] returns, its result has the
    shape of the grouping: one list per episode and one string per
    record of that episode. Flattened, it is as long as [data]. *)
Theorem X4_expanded_content_shape data W n key_field out :
  create_expanded_content data W n key_field = Ok out →
  ∃ episodes,
    groupby_episode data key_field = Ok episodes ∧
    Forall2 (λ (ep : list record) (o : list string), length o = length ep)
      episodes out ∧
    length (concat out) = length data.
Proof.
  intros (eps & cl & Heps & _ & Hcl & Hout)%create_expanded_content_inv.
  exists eps. split; [done|].
  assert (Hshape : Forall2 (λ (ep : list record) (o : list string),
    length o = length ep) eps out).
  { apply traverse_Ok in Hcl. apply traverse_Ok in Hout.
    apply Forall2_same_length_lookup. split.
    - by rewrite (Forall2_length _ _ _ Hcl), (Forall2_length _ _ _ Hout).
    - intros j ep o Hep Ho.
      destruct (Forall2_lookup_l _ _ _ _ _ Hcl Hep) as (c & Hc & Hepc).
      destruct (Forall2_lookup_l _ _ _ _ _ Hout Hc) as (o' & Ho' & Hco).
      assert (o' = o) as -> by congruence.
      apply length_expand_episode in Hco. apply traverse_Ok in Hepc.
      by rewrite Hco, (Forall2_length _ _ _ Hepc). }
  split; [done|].
  apply groupby_episode_Ok in Heps as [<- _].
  apply length_concat_Forall2.
  eapply Forall2_flip, Forall2_impl; [exact Hshape|]. by intros.
Qed.

Lemma X4_expanded_content_shape_witness :
  ∃ episodes,
    groupby_episode one_episode "video_id" = Ok episodes ∧
    Forall2 (λ (ep : list record) (o : list string), length o = length ep)
      episodes [["A B"; "A B"]] ∧
    length (concat [["A B"; "A B"]]) = length one_episode.
Proof.
  apply (X4_expanded_content_shape one_episode 1%Z 1%Z "video_id").
  vm_compute. reflexivity.
Defined.

(** X5. A window that reaches past both ends of every group gives each
    record the whole episode: when no group has more than [W+1] chunks,
    every expanded string of a group is the join of all its chunks. *)
Theorem X5_window_covers_whole_group data W n key_field episodes chunks :
  groupby_episode data key_field = Ok episodes →
  Z.of_nat (length episodes) = n →
  Forall2 contents_of episodes chunks →
  Forall (λ group : list string, (Z.of_nat (length group) ≤ W + 1)%Z) chunks →
  create_expanded_content data W n key_field
    = Ok ((λ group, replicate (length group) (join " " group)) <$> chunks).
Proof.
  intros Heps Hn Hchunks Hshort.
  rewrite (create_expanded_content_strs _ _ _ _ _ _ Heps Hn Hchunks).
  f_equal. apply list_fmap_ext. intros j group Hj.
  apply joined_slices_whole.
  rewrite Forall_forall in Hshort. apply Hshort.
  by eapply list_elem_of_lookup_2.
Qed.

Lemma X5_window_covers_whole_group_witness :
  create_expanded_content one_episode 1 1 "video_id"
    = Ok ((λ group, replicate (length group) (join " " group))
            <$> [["A"; "B"]]).
Proof.
  apply (X5_window_covers_whole_group one_episode 1%Z 1%Z "video_id"
    [one_episode]).
  - vm_compute. reflexivity.
  - reflexivity.
  - repeat constructor.
  - repeat constructor; simpl; lia.
Defined.

(** X6. A larger window only adds context: for [0 ≤ W ≤ W'] the
    expanded string of every record under [W] occurs as a contiguous
    substring of its expanded string under [W']. *)
Theorem X6_wider_window_contains_narrower data W W' n key_field
    episodes chunks :
  (0 ≤ W ≤ W')%Z →
  groupby_episode data key_field = Ok episodes →
  Z.of_nat (length episodes) = n →
  Forall2 contents_of episodes chunks →
  ∃ out out',
    create_expanded_content data W n key_field = Ok out ∧
    create_expanded_content data W' n key_field = Ok out' ∧
    Forall2 (Forall2 substring_of) out out'.
Proof.
  intros HW Heps Hn Hchunks.
  exists (joined_slices W <$> chunks), (joined_slices W' <$> chunks).
  split; [by eapply create_expanded_content_strs|].
  split; [by eapply create_expanded_content_strs|].
  apply Forall2_fmap, Forall_Forall2_diag, Forall_forall.
  intros group _. by apply joined_slices_widen.
Qed.

Lemma X6_wider_window_contains_narrower_witness :
  ∃ out out',
    create_expanded_content one_episode 0 1 "video_id" = Ok out ∧
    create_expanded_content one_episode 1 1 "video_id" = Ok out' ∧
    Forall2 (Forall2 substring_of) out out'.
Proof.
  apply (X6_wider_window_contains_narrower one_episode 0%Z 1%Z 1%Z "video_id"
    [one_episode] [["A"; "B"]]).
  - lia.
  - vm_compute. reflexivity.
  - reflexivity.
  - repeat constructor.
Defined.

(** ** The outcome of [create_expanded_content] *)

Lemma elem_of_concat {A} (ls : list (list A)) x :
  x ∈ concat ls ↔ ∃ l, l ∈ ls ∧ x ∈ l.
Proof.
  rewrite list_elem_of_In, in_concat. split.
  - intros (l & Hl & Hx). exists l. by rewrite !list_elem_of_In.
  - intros (l & Hl & Hx). exists l. by rewrite <- !list_elem_of_In.
Qed.

Lemma traverse_as_str_Ok items ss :
  traverse as_str items = Ok ss → items = VStr <$> ss.
Proof.
  intros Hall%traverse_Ok.
  induction Hall as [|v s items ss Hv _ IH]; [done|].
  destruct v as [| |s']; try discriminate. injection Hv as ->. by rewrite IH.
Qed.

Lemma str_join_Raise_elem sep items e :
  str_join sep items = Raise e →
  e = TypeError ∧ ∃ v, v ∈ items ∧ ∀ s, v ≠ VStr s.
Proof.
  intros Hj. pose proof (str_join_Raise _ _ _ Hj) as ->. split; [done|].
  unfold str_join in Hj. apply bind_Raise in Hj as [Htr|(ss & _ & [=])].
  apply traverse_Raise, Exists_exists in Htr as (v & Hv & Hx).
  exists v. split; [done|]. intros s ->. discriminate.
Qed.

Lemma elem_of_window W (episode : list value) i v :
  v ∈ window W episode i → v ∈ episode.
Proof.
  unfold window. intros Hv.
  destruct (py_slice_infix episode (Z.max 0 (i - W)) (i + W + 1)%Z)
    as (pre & post & Hcut & _).
  rewrite Hcut. set_solver.
Qed.

(** The inner loop fails only on a chunk that is not a string. *)
Lemma expand_episode_Raise_elem W episode e :
  expand_episode W episode = Raise e →
  e = TypeError ∧ ∃ v, v ∈ episode ∧ ∀ s, v ≠ VStr s.
Proof.
  rewrite expand_episode_eq.
  intros ([i c] & _ & Hix)%traverse_Raise%Exists_exists.
  apply str_join_Raise_elem in Hix as (-> & v & Hv & Hns).
  split; [done|]. exists v. split; [|done]. by eapply elem_of_window.
Qed.

(** For a non-negative window, it returns only on strings. *)
Lemma expand_episode_Ok_strs W episode out :
  (0 ≤ W)%Z → expand_episode W episode = Ok out →
  Forall (λ v, ∃ s, v = VStr s) episode.
Proof.
  intros HW. rewrite expand_episode_eq. intros Hall%traverse_Ok.
  apply Forall_forall. intros v (i & Hv)%list_elem_of_lookup.
  assert (Hix : enumerate episode !! i = Some (Z.of_nat i, v)).
  { unfold enumerate. by rewrite list_lookup_imap, Hv. }
  destruct (Forall2_lookup_l _ _ _ _ _ Hall Hix) as (s & _ & Hs).
  simpl in Hs. unfold str_join in Hs.
  apply bind_Ok in Hs as (ss & Hss & _).
  apply traverse_as_str_Ok in Hss.
  pose proof (py_slice_covers episode W i v HW Hv) as Hin.
  fold (window W episode (Z.of_nat i)) in Hin. rewrite Hss in Hin.
  apply list_elem_of_fmap in Hin as (s' & -> & _). by exists s'.
Qed.

Lemma traverse_getitem_Ok (episode : list record) k vs :
  traverse (λ d : record, getitem d k) episode = Ok vs ↔
  Forall2 (λ (d : record) v, d !! k = Some v) episode vs.
Proof.
  rewrite traverse_Ok. split; intros Hall;
    (eapply Forall2_impl; [exact Hall|]); intros d v; apply getitem_Ok.
Qed.

(** X7. The outcome of [create_expanded_content] for a non-negative
    window is decided by four checks made in this order: every record
    has the key field (else [KeyError]); the number of groups is
    [num_episodes] (else [AssertionError], whatever the contents are);
    every record has a [content] field (else [KeyError]); every content
    is a string (else [TypeError]). It returns exactly when all four
    hold. *)
Theorem X7_create_expanded_content_outcome data W n key_field :
  (0 ≤ W)%Z →
  let counted :=
    ∃ episodes, groupby_episode data key_field = Ok episodes ∧
                Z.of_nat (length episodes) = n in
  match create_expanded_content data W n key_field with
  | Ok _ => counted ∧ well_formed key_field data
  | Raise KeyError =>
      Exists (λ r : record, r !! key_field = None) data ∨
      (counted ∧ Exists (λ r : record, r !! "content" = None) data)
  | Raise AssertionError =>
      ∃ episodes, groupby_episode data key_field = Ok episodes ∧
                  Z.of_nat (length episodes) ≠ n
  | Raise TypeError =>
      counted ∧
      Forall (λ r : record, is_Some (r !! "content")) data ∧
      Exists (λ r : record, ∃ v, r !! "content" = Some v ∧ ∀ s, v ≠ VStr s)
        data
  end.
Proof.
  intros HW counted. subst counted. rewrite create_expanded_content_eq.
  destruct (groupby_episode data key_field) as [eps|e] eqn:Heps; simpl.
  2: { apply groupby_episode_Raise in Heps as [-> Hex]. by left. }
  pose proof (groupby_episode_Ok_keys _ _ _ Heps) as Hkeys.
  pose proof (groupby_episode_Ok _ _ _ Heps) as [Hcat _].
  unfold py_assert.
  destruct (Z.eqb_spec (Z.of_nat (length eps)) n) as [Hn|Hn]; simpl;
    [|by exists eps].
  assert (Hcounted : ∃ episodes, Ok eps = Ok episodes ∧
    Z.of_nat (length episodes) = n) by (by exists eps).
  destruct (traverse _ eps) as [cl|e] eqn:Hcl; simpl.
  2: { apply traverse_Raise, Exists_exists in Hcl as (ep & Hep & Hcl).
       apply traverse_Raise, Exists_exists in Hcl as (d & Hd & Hcl).
       apply getitem_Raise in Hcl as [-> Hnone]. right. split; [done|].
       apply Exists_exists. exists d. split; [|done].
       rewrite <- Hcat. apply elem_of_concat. eauto. }
  apply traverse_Ok in Hcl.
  assert (Hcontent : ∀ d, d ∈ data →
    ∃ c v, c ∈ cl ∧ v ∈ c ∧ d !! "content" = Some v).
  { intros d Hd. rewrite <- Hcat in Hd.
    apply elem_of_concat in Hd as (ep & Hep & Hd).
    apply list_elem_of_lookup in Hep as (j & Hep).
    destruct (Forall2_lookup_l _ _ _ _ _ Hcl Hep) as (c & Hc & Hepc).
    apply traverse_getitem_Ok in Hepc.
    apply list_elem_of_lookup in Hd as (i & Hd).
    destruct (Forall2_lookup_l _ _ _ _ _ Hepc Hd) as (v & Hv & Hdv).
    exists c, v. repeat split; [| |done]; by eapply list_elem_of_lookup_2. }
  destruct (traverse (expand_episode W) cl) as [out|e] eqn:Hout.
  - split; [done|]. apply Forall_forall. intros d Hd.
    rewrite Forall_forall in Hkeys. split; [by apply Hkeys|].
    destruct (Hcontent d Hd) as (c & v & Hc & Hv & Hdv).
    apply traverse_Ok in Hout.
    apply list_elem_of_lookup in Hc as (j & Hc).
    destruct (Forall2_lookup_l _ _ _ _ _ Hout Hc) as (o & _ & Ho).
    apply expand_episode_Ok_strs in Ho; [|done].
    rewrite Forall_forall in Ho. destruct (Ho v Hv) as [s ->]. by exists s.
  - apply traverse_Raise, Exists_exists in Hout as (c & Hc & Hout).
    apply expand_episode_Raise_elem in Hout as (-> & v & Hv & Hns).
    split; [done|]. split.
    + apply Forall_forall. intros d Hd.
      destruct (Hcontent d Hd) as (_ & v' & _ & _ & Hdv). by exists v'.
    + apply list_elem_of_lookup in Hc as (j & Hc).
      destruct (Forall2_lookup_r _ _ _ _ _ Hcl Hc) as (ep & Hep & Hepc).
      apply traverse_getitem_Ok in Hepc.
      apply list_elem_of_lookup in Hv as (i & Hv).
      destruct (Forall2_lookup_r _ _ _ _ _ Hepc Hv) as (d & Hd & Hdv).
      apply Exists_exists. exists d. split; [|by exists v].
      rewrite <- Hcat. apply elem_of_concat. exists ep.
      split; by eapply list_elem_of_lookup_2.
Qed.

Lemma X7_create_expanded_content_outcome_witness :
  ∃ episodes,
    groupby_episode [ {[ "video_id" := VStr "e" ]} ] "video_id" = Ok episodes ∧
    Z.of_nat (length episodes) ≠ 2%Z.
Proof.
  exact (X7_create_expanded_content_outcome
    [ {[ "video_id" := VStr "e" ]} ] 1%Z 2%Z "video_id" ltac:(lia)).
Defined.

(** ** What the transform reads *)

Lemma result_rel_bind {A A' B B'} (R : A → A' → Prop) (S : B → B' → Prop)
    (m : result A) (m' : result A') k k' :
  result_rel R m m' →
  (∀ a a', R a a' → result_rel S (k a) (k' a')) →
  result_rel S (bind m k) (bind m' k').
Proof.
  destruct m, m'; simpl; try done. intros HR Hk. by apply Hk.
Qed.

Lemma result_rel_eq {A} (r r' : result A) : result_rel (=) r r' → r = r'.
Proof. destruct r, r'; simpl; try done; by intros ->. Qed.

Lemma traverse_rel {A A' B} (f : A → result B) (g : A' → result B) xs ys :
  Forall2 (λ x y, f x = g y) xs ys → traverse f xs = traverse g ys.
Proof.
  induction 1 as [|x y xs ys Hxy _ IH]; simpl; [done|]. by rewrite Hxy, IH.
Qed.

Section same_fields.
Variable key_field : string.

Lemma grouper_same_fields it it' :
  Forall2 (same_fields key_field) it it' →
  ∀ tgt grp grp', Forall2 (same_fields key_field) grp grp' →
  result_rel (groups_rel key_field)
    (grouper (λ x : record, getitem x key_field) tgt grp it)
    (grouper (λ x : record, getitem x key_field) tgt grp' it').
Proof.
  induction 1 as [|x x' it it' [Hkey Hcontent] _ IH]; intros tgt grp grp' Hgrp.
  - simpl. by repeat constructor.
  - simpl. rewrite (proj2 (getitem_eq x x' key_field) Hkey).
    destruct (getitem x' key_field) as [k|e]; simpl; [|done].
    destruct (decide (k = tgt)) as [->|Hne].
    + apply IH. apply Forall2_app; [done|]. by repeat constructor.
    + eapply result_rel_bind; [apply IH; by repeat constructor|].
      intros gs gs' Hgs. simpl. by constructor.
Qed.

Lemma groupby_episode_same_fields data data' :
  Forall2 (same_fields key_field) data data' →
  result_rel (Forall2 (Forall2 (same_fields key_field)))
    (groupby_episode data key_field) (groupby_episode data' key_field).
Proof.
  intros Hdata. rewrite !groupby_episode_eq.
  eapply (result_rel_bind (groups_rel key_field)).
  - destruct Hdata as [|x x' it it' [Hkey Hcontent] Hit]; simpl; [constructor|].
    rewrite (proj2 (getitem_eq x x' key_field) Hkey).
    destruct (getitem x' key_field) as [k|e]; simpl; [|done].
    apply grouper_same_fields; [done|]. by repeat constructor.
  - intros gs gs' Hgs. simpl. apply Forall2_fmap.
    eapply Forall2_impl; [exact Hgs|]. by intros kg kg' [_ ?].
Qed.
End same_fields.

(** X8. [create_expanded_content] reads nothing of a record but its key
    field and its [content]: two inputs whose records agree, position by
    position, on those two fields (present with the same value, or
    absent in both) give the same result or the same exception. *)
Theorem X8_only_key_and_content_are_read data data' W n key_field :
  Forall2 (same_fields key_field) data data' →
  create_expanded_content data W n key_field
    = create_expanded_content data' W n key_field.
Proof.
  intros Hdata. rewrite !create_expanded_content_eq.
  apply result_rel_eq.
  eapply result_rel_bind; [by apply groupby_episode_same_fields|].
  intros eps eps' Heps. rewrite (Forall2_length _ _ _ Heps).
  destruct (py_assert _); simpl; [|done].
  replace (traverse (traverse (λ d : record, getitem d "content")) eps)
    with (traverse (traverse (λ d : record, getitem d "content")) eps').
  { by destruct (traverse _ eps') as [cl|]; simpl;
      [destruct (traverse _ cl)|]. }
  symmetry. apply traverse_rel.
  eapply Forall2_impl; [exact Heps|]. intros ep ep' Hep.
  apply traverse_rel. eapply Forall2_impl; [exact Hep|].
  intros d d' [_ Hcontent]. by apply getitem_eq.
Qed.

Lemma X8_only_key_and_content_are_read_witness :
  create_expanded_content [chunk "e" "A"; chunk "e" "B"] 1 1 "video_id"
  = create_expanded_content
      [ <["doc_id" := VStr "e_0"]> (chunk "e" "A");
        <["title" := VStr "t"]> (chunk "e" "B") ] 1 1 "video_id".
Proof.
  apply X8_only_key_and_content_are_read.
  repeat constructor; by vm_compute.
Defined.

(** ** Inputs put end to end *)

Lemma last_concat {A} (groups : list (list A)) g :
  g ≠ [] → last groups = Some g → last (concat groups) = last g.
Proof.
  intros Hg (groups' & ->)%last_Some.
  apply last_is_Some in Hg as [z Hz]. rewrite Hz.
  apply last_Some in Hz as (g' & ->).
  rewrite concat_app. simpl. rewrite app_nil_r, app_assoc. apply last_snoc.
Qed.

Lemma head_concat {A} (groups : list (list A)) g :
  g ≠ [] → head groups = Some g → head (concat groups) = head g.
Proof.
  intros Hg (groups' & ->)%head_Some. by destruct g.
Qed.

Lemma is_runs_app {A V} (kv : A → V) (l1 l2 : list (list A)) :
  is_runs kv l1 → is_runs kv l2 →
  (∀ g1 g2 x y, last l1 = Some g1 → head l2 = Some g2 →
     x ∈ g1 → y ∈ g2 → kv x ≠ kv y) →
  is_runs kv (l1 ++ l2).
Proof.
  intros [Hall1 Hadj1] [Hall2 Hadj2] Hseam. split.
  - by apply Forall_app.
  - intros j g g' x y Hj HSj Hx Hy.
    destruct (decide (S j < length l1)) as [Hlt|Hge].
    + rewrite lookup_app_l in Hj by lia. rewrite lookup_app_l in HSj by lia.
      exact (Hadj1 j g g' x y Hj HSj Hx Hy).
    + destruct (decide (j < length l1)) as [Hlt'|Hge'].
      * rewrite lookup_app_l in Hj by lia. rewrite lookup_app_r in HSj by lia.
        replace (S j - length l1) with 0 in HSj by lia.
        apply (Hseam g g'); [|by rewrite head_lookup|done..].
        rewrite last_lookup. by replace (pred (length l1)) with j by lia.
      * rewrite lookup_app_r in Hj by lia. rewrite lookup_app_r in HSj by lia.
        replace (S j - length l1) with (S (j - length l1)) in HSj by lia.
        exact (Hadj2 (j - length l1) g g' x y Hj HSj Hx Hy).
Qed.

Lemma traverse_app {A B} (f : A → result B) xs ys :
  traverse f (xs ++ ys) =
  let* a := traverse f xs in
  let* b := traverse f ys in
  Ok (a ++ b).
Proof.
  induction xs as [|x xs IH]; simpl.
  - by destruct (traverse f ys).
  - destruct (f x); simpl; [|done]. rewrite IH.
    destruct (traverse f xs); simpl; [|done]. by destruct (traverse f ys).
Qed.

Lemma groupby_episode_app data1 data2 key_field episodes1 episodes2 :
  groupby_episode data1 key_field = Ok episodes1 →
  groupby_episode data2 key_field = Ok episodes2 →
  (∀ a b : record, last data1 = Some a → head data2 = Some b →
     a !! key_field ≠ b !! key_field) →
  groupby_episode (data1 ++ data2) key_field = Ok (episodes1 ++ episodes2).
Proof.
  intros H1 H2 Hseam.
  pose proof (groupby_episode_Ok_keys _ _ _ H1) as Hk1.
  pose proof (groupby_episode_Ok_keys _ _ _ H2) as Hk2.
  apply groupby_episode_Ok in H1 as [<- Hruns1].
  apply groupby_episode_Ok in H2 as [<- Hruns2].
  rewrite <- concat_app. apply groupby_episode_runs.
  - apply is_runs_app; [done..|].
    intros g1 g2 x y Hg1 Hg2 Hx Hy.
    destruct Hruns1 as [Hall1 _], Hruns2 as [Hall2 _].
    rewrite Forall_forall in Hall1, Hall2.
    destruct (Hall1 g1) as [Hne1 Hconst1]; [by eapply last_Some_elem_of|].
    destruct (Hall2 g2) as [Hne2 Hconst2]; [by eapply head_Some_elem_of|].
    destruct (proj2 (last_is_Some g1) Hne1) as [a Ha].
    destruct g2 as [|b g2]; [done|].
    rewrite (Hconst1 x a Hx (last_Some_elem_of _ _ Ha)).
    rewrite (Hconst2 y b Hy ltac:(by left)).
    apply Hseam.
    + by rewrite (last_concat _ g1).
    + by rewrite (head_concat _ (b :: g2)).
  - apply Forall_forall. intros g Hg. apply Forall_forall. intros r Hr.
    assert (r ∈ concat episodes1 ++ concat episodes2) as Hin.
    { rewrite <- concat_app. apply elem_of_concat. eauto. }
    rewrite Forall_forall in Hk1, Hk2.
    apply elem_of_app in Hin as [Hin|Hin]; auto.
Qed.

(** X9. Two inputs put end to end, the second starting on a key other
    than the one the first ends on, are grouped and expanded
    independently: the groups of the whole are the groups of the first
    followed by those of the second, and so are the expanded contents,
    the expected count being the sum of the two counts. *)
Theorem X9_inputs_end_to_end data1 data2 W n1 n2 key_field out1 out2 :
  (∀ a b : record, last data1 = Some a → head data2 = Some b →
     a !! key_field ≠ b !! key_field) →
  create_expanded_content data1 W n1 key_field = Ok out1 →
  create_expanded_content data2 W n2 key_field = Ok out2 →
  create_expanded_content (data1 ++ data2) W (n1 + n2) key_field
    = Ok (out1 ++ out2).
Proof.
  intros Hseam
    (eps1 & cl1 & Heps1 & Hn1 & Hcl1 & Hout1)%create_expanded_content_inv
    (eps2 & cl2 & Heps2 & Hn2 & Hcl2 & Hout2)%create_expanded_content_inv.
  apply create_expanded_content_inv.
  exists (eps1 ++ eps2), (cl1 ++ cl2). repeat split.
  - by apply groupby_episode_app.
  - rewrite length_app. lia.
  - by rewrite traverse_app, Hcl1, Hcl2.
  - by rewrite traverse_app, Hout1, Hout2.
Qed.

Lemma X9_inputs_end_to_end_witness :
  create_expanded_content ([chunk "e" "A"] ++ [chunk "f" "X"])
    1 (1 + 1) "video_id"
  = Ok ([["A"]] ++ [["X"]]).
Proof.
  apply X9_inputs_end_to_end.
  - intros a b [= <-] [= <-]. vm_compute. discriminate.
  - vm_compute. reflexivity.
  - vm_compute. reflexivity.
Defined.

(** ** The assertion loop of the post-check cell *)

Lemma post_check_record (d : record) :
  bool_decide (default (VInt (-1)) (d !! "expanded_content") ≠ VInt (-1))
    = true ↔
  ∃ v, d !! "expanded_content" = Some v ∧ v ≠ VInt (-1).
Proof.
  rewrite bool_decide_eq_true.
  destruct (d !! "expanded_content") as [v|]; simpl; split.
  - intros Hv. by exists v.
  - by intros (v' & [= <-] & Hv).
  - done.
  - by intros (v' & [=] & _).
Qed.

(** X10. The assertion loop that opens the post-check cell runs to its
    end exactly when every record has an [expanded_content] field whose
    value is not the integer [-1], the default it hands to [dict.get];
    otherwise it fails with [AssertionError] and with nothing else. *)
Theorem X10_post_check (data : list record) :
  (post_check data = Ok tt ↔
   Forall (λ d : record,
       ∃ v, d !! "expanded_content" = Some v ∧ v ≠ VInt (-1)) data) ∧
  (∀ e, post_check data = Raise e → e = AssertionError).
Proof.
  unfold post_check. induction data as [|d data [IHok IHerr]]; simpl.
  - split; [by split|]. discriminate.
  - pose proof (post_check_record d) as Hd.
    destruct (bool_decide _); simpl.
    + split; [|done]. rewrite IHok, Forall_cons. split; [|by intros [_ ?]].
      intros Hall. split; [by apply Hd|done].
    + split; [|by intros e [= <-]]. split; [discriminate|].
      intros [Hd' _]%Forall_cons. apply Hd in Hd'. discriminate.
Qed.

(** ** The cache of document ids *)

Lemma for_each_app {A S} (body : S → A → result S) s xs ys :
  for_each body s (xs ++ ys) =
  let* s' := for_each body s xs in for_each body s' ys.
Proof.
  revert s. induction xs as [|x xs IH]; intros s; simpl; [done|].
  destruct (body s x); simpl; [apply IH|done].
Qed.

Lemma fill_cache_cons acc item items :
  fill_cache acc (item :: items) =
  let* doc_id := getitem (properties item) "doc_id" in
  fill_cache (<[doc_id := uuid item]> acc) items.
Proof. unfold fill_cache. simpl. by destruct (getitem _ _). Qed.

Lemma fill_cache_Raise items : ∀ acc e,
  fill_cache acc items = Raise e →
  e = KeyError ∧ Exists (λ item, doc_id_of item = None) items.
Proof.
  induction items as [|item items IH]; intros acc e; [discriminate|].
  rewrite fill_cache_cons.
  intros [[-> Hk]%getitem_Raise|(k & _ & [-> Hex]%IH)]%bind_Raise.
  - split; [done|]. by left.
  - split; [done|]. by right.
Qed.

Lemma fill_cache_Ok_ids items : ∀ acc cache,
  fill_cache acc items = Ok cache →
  Forall (λ item, is_Some (doc_id_of item)) items.
Proof.
  induction items as [|item items IH]; intros acc cache; [constructor|].
  rewrite fill_cache_cons. intros (k & Hk%getitem_Ok & Hfill)%bind_Ok.
  constructor; [by exists k|by eapply IH].
Qed.

Lemma fill_cache_defined items : ∀ acc,
  Forall (λ item, is_Some (doc_id_of item)) items →
  ∃ cache, fill_cache acc items = Ok cache.
Proof.
  induction items as [|item items IH]; intros acc Hall; [by eexists|].
  apply Forall_cons in Hall as [[k Hk] Hall].
  rewrite fill_cache_cons, (proj2 (getitem_Ok _ _ _) Hk). by apply IH.
Qed.

Lemma fill_cache_other items k : ∀ acc cache,
  fill_cache acc items = Ok cache →
  Forall (λ item, doc_id_of item ≠ Some k) items →
  cache !! k = acc !! k.
Proof.
  induction items as [|item items IH]; intros acc cache.
  - by intros [= <-].
  - rewrite fill_cache_cons.
    intros (k' & Hk'%getitem_Ok & Hfill)%bind_Ok [Hne Hall]%Forall_cons.
    rewrite (IH _ _ Hfill Hall).
    apply lookup_insert_ne. unfold doc_id_of in Hne. congruence.
Qed.

Lemma fill_cache_origin items k u : ∀ acc cache,
  fill_cache acc items = Ok cache → cache !! k = Some u →
  acc !! k = Some u ∨
  ∃ item, item ∈ items ∧ doc_id_of item = Some k ∧ uuid item = u.
Proof.
  induction items as [|item items IH]; intros acc cache.
  - intros [= <-]. by left.
  - rewrite fill_cache_cons.
    intros (k' & Hk'%getitem_Ok & Hfill)%bind_Ok Hu.
    destruct (IH _ _ Hfill Hu) as [Hacc|(item' & Hin & Hid & Huuid)].
    + destruct (decide (k' = k)) as [->|Hne].
      * rewrite lookup_insert_eq in Hacc. injection Hacc as <-.
        right. exists item. split; [by left|done].
      * rewrite lookup_insert_ne in Hacc by done. by left.
    + right. exists item'. split; [by right|done].
Qed.

Lemma fill_cache_size items : ∀ acc cache,
  fill_cache acc items = Ok cache →
  NoDup (doc_id_of <$> items) →
  Forall (λ item, ∀ k, doc_id_of item = Some k → acc !! k = None) items →
  size cache = size acc + length items.
Proof.
  induction items as [|item items IH]; intros acc cache.
  - intros [= <-] _ _. simpl. lia.
  - rewrite fill_cache_cons, fmap_cons.
    intros (k & Hk%getitem_Ok & Hfill)%bind_Ok [Hnotin Hnodup]%NoDup_cons
      [Hfresh Hall]%Forall_cons.
    rewrite (IH _ _ Hfill Hnodup).
    + rewrite map_size_insert_None by by apply Hfresh. simpl. lia.
    + apply Forall_forall. intros item' Hin k' Hk'.
      rewrite Forall_forall in Hall.
      rewrite lookup_insert_ne; [by eapply Hall|].
      intros ->. apply Hnotin. apply list_elem_of_fmap.
      exists item'. split; [|done]. unfold doc_id_of in *. congruence.
Qed.

(** X11. [doc_id_cache] fails exactly when some object has no [doc_id]
    property, with [KeyError]. Otherwise every cached entry maps the
    [doc_id] of some object to that object's uuid; the uuid cached for
    a [doc_id] is that of the last object carrying it, earlier objects
    with the same [doc_id] being overwritten; and when the [doc_id]s
    are pairwise distinct the cache has one entry per object. *)
Theorem X11_doc_id_cache (items : list weaviate_object) :
  match doc_id_cache items with
  | Raise e => e = KeyError ∧ Exists (λ item, doc_id_of item = None) items
  | Ok cache =>
      Forall (λ item, is_Some (doc_id_of item)) items ∧
      (∀ k u, cache !! k = Some u →
         ∃ item, item ∈ items ∧ doc_id_of item = Some k ∧ uuid item = u) ∧
      (∀ before item after k,
         items = before ++ item :: after → doc_id_of item = Some k →
         Forall (λ item', doc_id_of item' ≠ Some k) after →
         cache !! k = Some (uuid item)) ∧
      (NoDup (doc_id_of <$> items) → size cache = length items)
  end.
Proof.
  change (doc_id_cache items) with (fill_cache ∅ items).
  destruct (fill_cache ∅ items) as [cache|e] eqn:Hfill;
    [|by apply fill_cache_Raise in Hfill].
  split; [|split; [|split]].
  - by eapply fill_cache_Ok_ids.
  - intros k u Hu.
    by destruct (fill_cache_origin _ _ _ _ _ Hfill Hu) as [Hempty|?].
  - intros before item after k -> Hk Hafter.
    unfold fill_cache in Hfill. rewrite for_each_app in Hfill.
    apply bind_Ok in Hfill as (acc & _ & Hfill).
    fold (fill_cache acc (item :: after)) in Hfill.
    rewrite fill_cache_cons in Hfill.
    apply bind_Ok in Hfill as (k' & Hk'%getitem_Ok & Hfill).
    unfold doc_id_of in Hk. assert (k' = k) as -> by congruence.
    rewrite (fill_cache_other _ _ _ _ Hfill Hafter). apply lookup_insert_eq.
  - intros Hnodup. rewrite (fill_cache_size _ _ _ Hfill Hnodup).
    + by rewrite map_size_empty.
    + apply Forall_forall. intros item _ k _. apply lookup_empty.
Qed.

Lemma fill_cache_dom items k : ∀ acc cache,
  fill_cache acc items = Ok cache →
  is_Some (acc !! k) ∨ (∃ item, item ∈ items ∧ doc_id_of item = Some k) →
  is_Some (cache !! k).
Proof.
  induction items as [|item items IH]; intros acc cache.
  - intros [= <-] [?|(item & Hin & _)]; [done|]. by apply elem_of_nil in Hin.
  - rewrite fill_cache_cons.
    intros (k' & Hk'%getitem_Ok & Hfill)%bind_Ok Hk.
    apply (IH _ _ Hfill).
    destruct (decide (k' = k)) as [->|Hne].
    + left. rewrite lookup_insert_eq. by eexists.
    + rewrite lookup_insert_ne by done.
      destruct Hk as [?|(item' & [->|Hin]%elem_of_cons & Hid)]; [by left| |].
      * unfold doc_id_of in Hid. congruence.
      * right. by exists item'.
Qed.

(** ** The update loop *)

Lemma cache_getitem_Ok cache k u :
  cache_getitem cache k = Ok u ↔ cache !! k = Some u.
Proof. unfold cache_getitem. destruct (cache !! k); split; congruence. Qed.

Lemma update_call_Ok cache d call :
  update_call cache d = Ok call ↔ update_for cache d call.
Proof.
  unfold update_call, update_for. split.
  - intros (doc_id & Hid%getitem_Ok & Hrest)%bind_Ok.
    apply bind_Ok in Hrest as (ec & Hec%getitem_Ok & Hrest).
    apply bind_Ok in Hrest as (u & Hu%cache_getitem_Ok & [= <-]).
    by exists doc_id, ec, u.
  - intros (doc_id & ec & u & Hid & Hec & Hu & ->).
    rewrite (proj2 (getitem_Ok _ _ _) Hid). simpl.
    rewrite (proj2 (getitem_Ok _ _ _) Hec). simpl.
    by rewrite (proj2 (cache_getitem_Ok _ _ _) Hu).
Qed.

Lemma update_call_Raise cache d e :
  update_call cache d = Raise e →
  e = KeyError ∧
  (d !! "doc_id" = None ∨ d !! "expanded_content" = None ∨
   ∃ doc_id, d !! "doc_id" = Some doc_id ∧ cache !! doc_id = None).
Proof.
  unfold update_call.
  intros [[-> ?]%getitem_Raise|(doc_id & Hid%getitem_Ok & Hrest)]%bind_Raise;
    [by auto|].
  apply bind_Raise in Hrest as [[-> ?]%getitem_Raise|(ec & _ & Hrest)];
    [by auto|].
  apply bind_Raise in Hrest as [Hu|(u & _ & [=])].
  unfold cache_getitem in Hu.
  destruct (cache !! doc_id) eqn:E; [discriminate|]. injection Hu as <-.
  split; [done|]. right. right. by exists doc_id.
Qed.

(** The loop from any list of calls already made. *)
Lemma update_loop_outcome cache data : ∀ calls,
  match update_loop cache calls data with
  | (calls', Ok _) =>
      ∃ new, calls' = calls ++ new ∧ Forall2 (update_for cache) data new
  | (calls', Raise e) =>
      e = KeyError ∧
      ∃ served d rest new,
        data = served ++ d :: rest ∧ calls' = calls ++ new ∧
        Forall2 (update_for cache) served new ∧
        (d !! "doc_id" = None ∨ d !! "expanded_content" = None ∨
         ∃ doc_id, d !! "doc_id" = Some doc_id ∧ cache !! doc_id = None)
  end.
Proof.
  induction data as [|d data IH]; intros calls; simpl.
  - exists []. by rewrite app_nil_r.
  - destruct (update_call cache d) as [call|e] eqn:Hcall.
    + apply update_call_Ok in Hcall. specialize (IH (calls ++ [call])).
      destruct (update_loop cache (calls ++ [call]) data) as [calls' [[]|e]].
      * destruct IH as (new & -> & Hnew). exists (call :: new).
        split; [by rewrite <- app_assoc|by constructor].
      * destruct IH as (-> & served & d' & rest & new & -> & -> & Hnew & Hd').
        split; [done|]. exists (d :: served), d', rest, (call :: new).
        repeat split; [by rewrite <- app_assoc|by constructor|done].
    + apply update_call_Raise in Hcall as [-> Hd]. split; [done|].
      exists [], d, data, []. by rewrite app_nil_r.
Qed.

(** X12. The update loop makes one [collection.data.update] call per
    record, in order, each with the uuid cached for the record's
    [doc_id] and the record's [expanded_content] as its only property.
    It stops with [KeyError] at the first record that has no [doc_id],
    no [expanded_content], or a [doc_id] missing from the cache; the
    calls already made for the records before it are not undone, and no
    call is made for that record or any later one. *)
Theorem X12_update_collection cache data :
  match update_collection cache data with
  | (calls, Ok _) => Forall2 (update_for cache) data calls
  | (calls, Raise e) =>
      e = KeyError ∧
      ∃ served d rest,
        data = served ++ d :: rest ∧
        Forall2 (update_for cache) served calls ∧
        (d !! "doc_id" = None ∨ d !! "expanded_content" = None ∨
         ∃ doc_id, d !! "doc_id" = Some doc_id ∧ cache !! doc_id = None)
  end.
Proof.
  unfold update_collection. pose proof (update_loop_outcome cache data []) as H.
  destruct (update_loop cache [] data) as [calls [[]|e]].
  - by destruct H as (new & -> & Hnew).
  - destruct H as (-> & served & d & rest & new & -> & -> & Hnew & Hd).
    split; [done|]. by exists served, d, rest.
Qed.

(** X13. The two cells of the update path fit together: with the cache
    built from the collection's objects, if every record has an
    [expanded_content] and a [doc_id] carried by some object, the loop
    ends normally, and the call made for a record goes to the uuid of
    an object with the record's [doc_id] and carries the record's
    [expanded_content]. *)
Theorem X13_cache_then_update items cache data :
  doc_id_cache items = Ok cache →
  Forall (λ d : record,
      is_Some (d !! "expanded_content") ∧
      ∃ doc_id item,
        d !! "doc_id" = Some doc_id ∧ item ∈ items ∧
        doc_id_of item = Some doc_id) data →
  ∃ calls,
    update_collection cache data = (calls, Ok tt) ∧
    Forall2 (λ (d : record) call,
        ∃ doc_id expanded_content item,
          d !! "doc_id" = Some doc_id ∧
          d !! "expanded_content" = Some expanded_content ∧
          item ∈ items ∧ doc_id_of item = Some doc_id ∧
          call = DataUpdate (uuid item)
                   {[ "expanded_content" := expanded_content ]})
      data calls.
Proof.
  change (doc_id_cache items) with (fill_cache ∅ items). intros Hfill Hdata.
  assert (Hserved : Forall (λ d, ∃ call, update_for cache d call) data).
  { eapply Forall_impl; [exact Hdata|].
    intros d ([ec Hec] & doc_id & item & Hid & Hin & Hitem).
    destruct (fill_cache_dom _ doc_id _ _ Hfill) as [u Hu]; [right; eauto|].
    eexists. by exists doc_id, ec, u. }
  unfold update_collection.
  pose proof (update_loop_outcome cache data []) as H.
  destruct (update_loop cache [] data) as [calls [[]|e]].
  - destruct H as (new & -> & Hnew). exists new. split; [done|].
    eapply Forall2_impl; [exact Hnew|].
    intros d call (doc_id & ec & u & Hid & Hec & Hu & ->).
    destruct (fill_cache_origin _ _ _ _ _ Hfill Hu)
      as [Hempty|(item & Hin & Hitem & <-)]; [done|].
    by exists doc_id, ec, item.
  - destruct H as (_ & served & d & rest & new & -> & _ & _ & Hd).
    apply Forall_app in Hserved as [_ [(call & Hcall) _]%Forall_cons].
    destruct Hcall as (doc_id & ec & u & Hid & Hec & Hu & _).
    destruct Hd as [?|[?|(doc_id' & ? & ?)]]; congruence.
Qed.

Lemma X13_cache_then_update_witness :
  ∃ calls,
    update_collection {[ VStr "e_0" := "u0"; VStr "e_1" := "u1" ]}
      [ {[ "doc_id" := VStr "e_1"; "expanded_content" := VStr "A B" ]} ]
      = (calls, Ok tt) ∧
    Forall2 (λ (d : record) call,
        ∃ doc_id expanded_content item,
          d !! "doc_id" = Some doc_id ∧
          d !! "expanded_content" = Some expanded_content ∧
          item ∈ [ WeaviateObject {[ "doc_id" := VStr "e_0" ]} "u0";
                   WeaviateObject {[ "doc_id" := VStr "e_1" ]} "u1" ] ∧
          doc_id_of item = Some doc_id ∧
          call = DataUpdate (uuid item)
                   {[ "expanded_content" := expanded_content ]})
      [ {[ "doc_id" := VStr "e_1"; "expanded_content" := VStr "A B" ]} ] calls.
Proof.
  apply (X13_cache_then_update
    [ WeaviateObject {[ "doc_id" := VStr "e_0" ]} "u0";
      WeaviateObject {[ "doc_id" := VStr "e_1" ]} "u1" ]).
  - vm_compute. reflexivity.
  - repeat constructor.
    + vm_compute. eauto.
    + exists (VStr "e_1"), (WeaviateObject {[ "doc_id" := VStr "e_1" ]} "u1").
      split; [by vm_compute|]. split; [|by vm_compute].
      apply elem_of_cons. right. apply elem_of_cons. by left.
Defined.
